(** * Planar circle geometry of the Manim-Learning scenes

    A shallow embedding of the geometric core of [src/first.py]
    (CapsuleScene) and [src/triangle/triangle_w_circle.py] (TriangleScene):
    circle-circle intersection, the choice of the outward arc between two
    points of a circle, the snapping of sampled arc end points, and the
    orientation test on the triangle of centres.

    Numbers.  The scripts compute with binary64 floats; here every float is
    a real number of the Standard Library, so each operation is the exact
    one ([np.sqrt] is [sqrt], [np.linalg.norm] the Euclidean norm,
    [np.arctan2] the two-argument arctangent, [%] the floored remainder).
    Rounding, overflow and NaN are outside this model.  The two operations
    that numpy flags as invalid (a division by zero, the square root of a
    negative number) are kept visible: they yield [FloatingPointError]
    instead of a number, so that "the guards run before the arithmetic" is a
    statement that can be proved. *)

From stdpp Require Import base decidable option list gmap.
From Stdlib Require Import Reals Lra Psatz Zfloor.

Local Open Scope R_scope.

(** ** Decidable comparisons on floats-as-reals *)

#[global] Instance Rlt_decision : RelDecision Rlt := Rlt_dec.
#[global] Instance Rgt_decision : RelDecision Rgt := Rgt_dec.
#[global] Instance Req_decision : EqDecision R := Req_dec_T.

(** ** Outcomes of numeric code *)

Inductive outcome (A : Type) : Type :=
| Returns (a : A)
| FloatingPointError.
Arguments Returns {A} a.
Arguments FloatingPointError {A}.

#[global] Instance outcome_ret : MRet outcome := fun _ a => Returns a.
#[global] Instance outcome_bind : MBind outcome := fun _ _ k m =>
  match m with
  | Returns a => k a
  | FloatingPointError => FloatingPointError
  end.

(** [x / y] on floats: invalid when the divisor is zero. *)
Definition fdiv (x y : R) : outcome R :=
  if decide (y = 0) then FloatingPointError else Returns (x / y).

(** [np.sqrt x]: invalid on a negative argument. *)
Definition fsqrt (x : R) : outcome R :=
  if decide (x < 0) then FloatingPointError else Returns (sqrt x).

(** ** Points: numpy arrays of three floats *)

Record point : Type := mkpoint { px : R; py : R; pz : R }.

Definition vadd (p q : point) : point :=
  mkpoint (px p + px q) (py p + py q) (pz p + pz q).
Definition vsub (p q : point) : point :=
  mkpoint (px p - px q) (py p - py q) (pz p - pz q).
Definition vneg (p : point) : point :=
  mkpoint (- px p) (- py p) (- pz p).
Definition vscale (k : R) (p : point) : point :=
  mkpoint (k * px p) (k * py p) (k * pz p).
Definition vdiv (p : point) (k : R) : outcome point :=
  x ← fdiv (px p) k; y ← fdiv (py p) k; z ← fdiv (pz p) k;
  mret (mkpoint x y z).

(** [np.dot] and [np.linalg.norm] on three components. *)
Definition dot (p q : point) : R :=
  px p * px q + py p * py q + pz p * pz q.
Definition norm (p : point) : R :=
  sqrt (px p ^ 2 + py p ^ 2 + pz p ^ 2).

(** Distance between two points, as the claims speak of it. *)
Definition dist (p q : point) : R := norm (vsub p q).

(** The data model keeps every point in the plane z = 0. *)
Definition planar (p : point) : Prop := pz p = 0.

Declare Scope vec_scope.
Delimit Scope vec_scope with V.
Infix "+v" := vadd (at level 50, left associativity) : vec_scope.
Infix "-v" := vsub (at level 50, left associativity) : vec_scope.
Infix "*v" := vscale (at level 40, left associativity) : vec_scope.
Local Open Scope vec_scope.

(** ** TriangleScene  (triangle_w_circle.py) *)

Module Triangle.

(** A manim [Circle], as far as the geometry reads it. *)
Record Circle : Type := mkCircle { get_center : point; radius : R }.

(** The three parallel lists the scene keeps. *)
Record ordering : Type := mkOrdering {
  circles : list Circle;
  centers : list point;
  radii : list R
}.

(** One summand of the shoelace loop (lines 23-25); [None] is the
    IndexError of a list that is too short. *)
Definition area_term (centers : list point) (i : nat) : option R :=
  c ← centers !! i;
  c' ← centers !! ((i + 1) mod 3)%nat;
  Some (px c * py c' - px c' * py c).

(** Lines 21-25: [area = 0; for i in range(3): area += ...]. *)
Definition signed_area (centers : list point) : option R :=
  foldl (fun area i => s ← area; t ← area_term centers i; Some (s + t))
        (Some 0) (seq 0 3).

(** Lines 16-31: build the lists, reverse all three when the area is
    negative. *)
Definition force_ccw (circles : list Circle) : option ordering :=
  let centers := get_center <$> circles in
  let radii := radius <$> circles in
  area ← signed_area centers;
  if decide (area < 0)
  then Some (mkOrdering (reverse circles) (reverse centers) (reverse radii))
  else Some (mkOrdering circles centers radii).


(** Lines 39-43: [g = 0; for i in range(3): g += centers[i]; g /= 3].
    The scalar 0 is added to every component of the first center. *)
Definition centroid (centers : list point) : option point :=
  g ← foldl (fun g i => s ← g; c ← centers !! i; Some (s +v c))
            (Some (mkpoint 0 0 0)) (seq 0 3);
  Some (mkpoint (px g / 3) (py g / 3) (pz g / 3)).

(** Line 46: [v / np.linalg.norm(v)], with no guard on the norm. *)
Definition normalize (v : point) : outcome point := vdiv v (norm v).

(** Lines 45-46: the directions from the centroid to the three centers.
    [None] is the IndexError of a short list; the inner outcome is that
    of the three divisions. *)
Definition outward_dirs (centers : list point) (g : point)
    : option (outcome (list point)) :=
  c0 ← centers !! 0%nat;
  c1 ← centers !! 1%nat;
  c2 ← centers !! 2%nat;
  Some (mapM normalize [c0 -v g; c1 -v g; c2 -v g]).

(** *** [circle_circle_intersections]  (lines 51-89) *)

(** The default tolerance [eps=1e-8]. *)
Definition default_eps : R := 1 / 100000000.

Definition circle_circle_intersections
    (c1 : point) (r1 : R) (c2 : point) (r2 : R) (eps : R)
    : outcome (list point) :=
  let v := c2 -v c1 in
  let d := norm v in
  (* Same center: infinite or none (ignore) *)
  if decide (d < eps) then mret []
  (* Too far apart or one inside the other: no intersection *)
  else if bool_decide (d > r1 + r2 + eps)
          || bool_decide (d < Rabs (r1 - r2) - eps) then mret []
  else
    (* Distance from c1 to midpoint between intersections *)
    a ← fdiv (r1 ^ 2 - r2 ^ 2 + d ^ 2) (2 * d);
    let h_sq := r1 ^ 2 - a ^ 2 in
    let h_sq := if decide (Rabs h_sq < eps) then 0 else h_sq in
    if decide (h_sq < 0) then mret []
    else
      h ← fsqrt h_sq;
      (* Base point *)
      av ← vdiv (a *v v) d;
      let p0 := c1 +v av in
      (* Perpendicular vector *)
      perp ← vdiv (mkpoint (- py v) (px v) 0) d;
      (* Tangent case *)
      if decide (h = 0) then mret [p0]
      else
        let p1 := p0 +v h *v perp in
        let p2 := p0 -v h *v perp in
        mret [p1; p2].

(** Lines 90-95: the dictionary of intersection lists, one entry per
    pair of consecutive circles, keyed by the pair of indices.  [None] is
    an IndexError; the inner outcome is that of the calls. *)
Definition intersections_step (centers : list point) (radii : list R)
    (n : nat)
    (acc : option (outcome (gmap (nat * nat) (list point)))) (i : nat)
    : option (outcome (gmap (nat * nat) (list point))) :=
  m ← acc;
  let j := ((i + 1) mod n)%nat in
  ci ← centers !! i;
  ri ← radii !! i;
  cj ← centers !! j;
  rj ← radii !! j;
  Some (d ← m;
        pts ← circle_circle_intersections ci ri cj rj default_eps;
        mret (<[(i, j) := pts]> d)).

Definition intersections (o : ordering)
    : option (outcome (gmap (nat * nat) (list point))) :=
  let n := length (circles o) in
  foldl (intersections_step (centers o) (radii o) n)
        (Some (Returns ∅)) (seq 0 n).

(** What the loop stores under the key (i, j): the result of the call for
    the circles [i] and [j], where [j] is the cyclic successor of [i]. *)
Definition intersections_entry (centers : list point) (radii : list R)
    (n i j : nat) (pts : list point) : Prop :=
  j = ((i + 1) mod n)%nat
  /\ exists ci ri cj rj,
       centers !! i = Some ci /\ radii !! i = Some ri
       /\ centers !! j = Some cj /\ radii !! j = Some rj
       /\ circle_circle_intersections ci ri cj rj default_eps = Returns pts.

(** The quantities the claims name, as the function computes them. *)
Definition cc_d (c1 c2 : point) : R := norm (c2 -v c1).
Definition cc_a (c1 : point) (r1 : R) (c2 : point) (r2 : R) : R :=
  (r1 ^ 2 - r2 ^ 2 + cc_d c1 c2 ^ 2) / (2 * cc_d c1 c2).
Definition cc_h_sq (c1 : point) (r1 : R) (c2 : point) (r2 : R) : R :=
  r1 ^ 2 - cc_a c1 r1 c2 r2 ^ 2.
Definition cc_p0 (c1 : point) (r1 : R) (c2 : point) (r2 : R) : point :=
  let v := c2 -v c1 in
  let d := cc_d c1 c2 in
  let a := cc_a c1 r1 c2 r2 in
  c1 +v mkpoint (a * px v / d) (a * py v / d) (a * pz v / d).
Definition cc_perp (c1 c2 : point) : point :=
  let v := c2 -v c1 in
  let d := cc_d c1 c2 in
  mkpoint (- py v / d) (px v / d) (0 / d).

End Triangle.

(** ** CapsuleScene  (first.py) *)

Module Capsule.

(** Lines 7-13: the two circles of the scene. *)
Definition scene_c1 : point := mkpoint (-2) 0 0.
Definition scene_c2 : point := mkpoint 2 0 0.
Definition scene_r1 : R := 3.
Definition scene_r2 : R := 3.

(** manim's [TAU]. *)
Definition TAU : R := 2 * PI.

(** [np.arctan2 y x]: the angle of the vector (x, y), in (-pi, pi]. *)
Definition arctan2 (y x : R) : R :=
  if decide (0 < x) then atan (y / x)
  else if decide (x < 0) then
    if decide (y < 0) then atan (y / x) - PI else atan (y / x) + PI
  else if decide (0 < y) then PI / 2
  else if decide (y < 0) then - (PI / 2)
  else 0.

(** Python's [%] on floats: the remainder of the floored quotient, with
    the sign of the modulus.  Every call site passes [TAU]. *)
Definition float_mod (x m : R) : R := x - m * IZR (Zfloor (x / m)).

(** A manim [Arc], by the arguments it is built from. *)
Record Arc : Type := mkArc {
  radius : R;
  arc_center : point;
  start_angle : R;
  angle : R;
  num_components : nat
}.

(** Lines 16-45: the two intersection points, or [None] where the scene
    only shows the circles and returns. *)
Definition intersection_points
    (c1 : point) (r1 : R) (c2 : point) (r2 : R)
    : outcome (option (point * point)) :=
  let v := c2 -v c1 in
  let dist := norm v in
  if decide (dist = 0) then mret None
  else
    a ← fdiv (r1 ^ 2 - r2 ^ 2 + dist ^ 2) (2 * dist);
    let h_sq := r1 ^ 2 - a ^ 2 in
    let h_sq :=
      if bool_decide (h_sq < 0) && bool_decide (h_sq > - (1 / 100000000))
      then 0 else h_sq in
    if decide (h_sq < 0) then mret None
    else
      h ← fsqrt h_sq;
      (* Reference point along the center line between intersections *)
      ax ← fdiv (a * (px c2 - px c1)) dist;
      ay ← fdiv (a * (py c2 - py c1)) dist;
      let x0 := px c1 + ax in
      let y0 := py c1 + ay in
      (* Perpendicular offset to get the two intersection points *)
      hd ← fdiv h dist;
      let rx := - (py c2 - py c1) * hd in
      let ry := (px c2 - px c1) * hd in
      let p1 := mkpoint (x0 + rx) (y0 + ry) 0 in
      let p2 := mkpoint (x0 - rx) (y0 - ry) 0 in
      mret (Some (p1, p2)).

(** Lines 54-56. *)
Definition safe_normalize (u : point) : outcome point :=
  let n := norm u in
  if decide (n <> 0) then vdiv u n else mret u.

(** Lines 71-75. *)
Definition norm_pos (a : R) : R :=
  let a := float_mod a TAU in
  if decide (a < 0) then a + TAU else a.

(** Lines 63-104. *)
Definition get_arc_path
    (center : point) (radius : R) (p_start p_end outward_vec : point)
    : Arc :=
  let v_start := p_start -v center in
  let v_end := p_end -v center in
  let ang_start := arctan2 (py v_start) (px v_start) in
  let ang_end := arctan2 (py v_end) (px v_end) in
  (* Normalize angles into [0, 2pi) *)
  let ang_start := norm_pos ang_start in
  let ang_end := norm_pos ang_end in
  (* Compute CCW sweep from start -> end in [0, 2pi) *)
  let sweep := ang_end - ang_start in
  let sweep := if decide (sweep < 0) then sweep + TAU else sweep in
  (* Mid-angle of that CCW arc *)
  let mid_angle_ccw := ang_start + sweep / 2 in
  let mid_angle_ccw := norm_pos mid_angle_ccw in
  let mid_pt_ccw :=
    center +v radius *v mkpoint (cos mid_angle_ccw) (sin mid_angle_ccw) 0 in
  let final_sweep :=
    if decide (dot (mid_pt_ccw -v center) outward_vec > 0)
    then sweep            (* positive => CCW angle *)
    else sweep - TAU      (* negative => CW angle (long way) *) in
  mkArc radius center ang_start final_sweep 60.

(** The local quantities of [get_arc_path] that the claims name. *)
Definition angle_of (center p : point) : R :=
  norm_pos (arctan2 (py (p -v center)) (px (p -v center))).
Definition ccw_sweep (center p_start p_end : point) : R :=
  let sweep := angle_of center p_end - angle_of center p_start in
  if decide (sweep < 0) then sweep + TAU else sweep.
Definition mid_pt_ccw (center : point) (radius : R) (p_start p_end : point)
    : point :=
  let m := norm_pos (angle_of center p_start
                     + ccw_sweep center p_start p_end / 2) in
  center +v radius *v mkpoint (cos m) (sin m) 0.

(** The point of the circle at angle [theta]. *)
Definition circle_point (center : point) (radius : R) (theta : R) : point :=
  center +v radius *v mkpoint (cos theta) (sin theta) 0.

(** A point lies on the circle: in its plane, at the radius from the
    center. *)
Definition on_circle (center : point) (radius : R) (p : point) : Prop :=
  pz p = pz center /\ dist p center = radius.

(** The midpoint of an arc: the point of its circle at the angle
    start + sweep / 2. *)
Definition arc_midpoint (arc : Arc) : point :=
  circle_point (arc_center arc) (radius arc)
               (start_angle arc + angle arc / 2).

(** Modelled from the spec: the point sequence of an arc, which the scene
    reads from manim's [Arc.points] (not part of the repository).  The spec
    samples the arc "from start angle through start angle + sweep at
    uniform angular steps"; [num_components] steps give
    [num_components + 1] points. *)
Definition arc_points (arc : Arc) : list point :=
  (fun i : nat =>
     circle_point (arc_center arc) (radius arc)
       (start_angle arc + angle arc * (INR i / INR (num_components arc))))
  <$> seq 0 (S (num_components arc)).

(** Lines 116-122: overwrite the first and the last point of a segment;
    [pts[-1]] is the element at index [len - 1]. *)
Definition snap {A : Type} (pts : list A) (p_first p_last : A) : list A :=
  if decide (0 < length pts)%nat then
    let pts := <[0%nat := p_first]> pts in
    <[(length pts - 1)%nat := p_last]> pts
  else pts.

(** Lines 111-125: the two snapped segments, appended in order. *)
Definition capsule_points {A : Type} (pts_A pts_B : list A) (p1 p2 : A)
    : list A :=
  snap pts_A p1 p2 ++ snap pts_B p2 p1.


(** Lines 47-125 after the intersection: outward vectors, the two arcs,
    their points, the snapped outline. *)
Definition construct (c1 : point) (r1 : R) (c2 : point) (r2 : R)
    : outcome (option (list point)) :=
  pts ← intersection_points c1 r1 c2 r2;
  match pts with
  | None => mret None
  | Some (p1, p2) =>
      outward_A ← safe_normalize (vneg (c2 -v c1));
      outward_B ← safe_normalize (c2 -v c1);
      let arc_A_obj := get_arc_path c1 r1 p1 p2 outward_A in
      let arc_B_obj := get_arc_path c2 r2 p2 p1 outward_B in
      mret (Some (capsule_points (arc_points arc_A_obj)
                                 (arc_points arc_B_obj) p1 p2))
  end.

End Capsule.

(** * Properties *)

(** Run the binds of a computation whose operations have succeeded. *)
Ltac run_outcome := cbn [mbind outcome_bind mret outcome_ret].

(** A square root of a positive number is not zero. *)
Ltac sqrt_nonzero :=
  let H := fresh "Hroot" in intros H; apply sqrt_eq_0 in H; lra.

(** ** Outcomes and vectors *)

Lemma fdiv_ok (x y : R) : y <> 0 -> fdiv x y = Returns (x / y).
Proof. intros Hy. unfold fdiv. now rewrite decide_False. Qed.

Lemma fsqrt_ok (x : R) : 0 <= x -> fsqrt x = Returns (sqrt x).
Proof. intros Hx. unfold fsqrt. rewrite decide_False; [easy | lra]. Qed.

Lemma vdiv_ok (p : point) (k : R) :
  k <> 0 -> vdiv p k = Returns (mkpoint (px p / k) (py p / k) (pz p / k)).
Proof. intros Hk. unfold vdiv. now rewrite !fdiv_ok. Qed.

Lemma norm_nonneg (p : point) : 0 <= norm p.
Proof. apply sqrt_pos. Qed.

Lemma norm_sqr (p : point) : norm p ^ 2 = px p ^ 2 + py p ^ 2 + pz p ^ 2.
Proof.
  unfold norm. rewrite <- Rsqr_pow2. apply Rsqr_sqrt.
  pose proof (pow2_ge_0 (px p)). pose proof (pow2_ge_0 (py p)).
  pose proof (pow2_ge_0 (pz p)). lra.
Qed.

Lemma norm_of_square (p : point) (r : R) :
  0 <= r -> px p ^ 2 + py p ^ 2 + pz p ^ 2 = r ^ 2 -> norm p = r.
Proof.
  intros Hr Heq. unfold norm. rewrite Heq, <- Rsqr_pow2. now apply sqrt_Rsqr.
Qed.

Lemma point_eq (p q : point) :
  px p = px q -> py p = py q -> pz p = pz q -> p = q.
Proof. destruct p, q; simpl; congruence. Qed.

Lemma vsub_as_vadd (p q : point) (h : R) :
  p -v h *v q = p +v (-1 * h) *v q.
Proof. apply point_eq; simpl; ring. Qed.

Lemma vadd_as_vadd (p q : point) (h : R) :
  p +v h *v q = p +v (1 * h) *v q.
Proof. apply point_eq; simpl; ring. Qed.

(** ** [circle_circle_intersections], branch by branch *)

Section Intersections.
Import Triangle.
Variables (c1 c2 : point) (r1 r2 eps : R).

Lemma cci_coincident :
  cc_d c1 c2 < eps ->
  circle_circle_intersections c1 r1 c2 r2 eps = Returns [].
Proof.
  intros Hd. unfold circle_circle_intersections.
  fold (cc_d c1 c2). now rewrite decide_True.
Qed.

Lemma cci_apart :
  cc_d c1 c2 > r1 + r2 + eps \/ cc_d c1 c2 < Rabs (r1 - r2) - eps ->
  circle_circle_intersections c1 r1 c2 r2 eps = Returns [].
Proof.
  intros Hd. unfold circle_circle_intersections. fold (cc_d c1 c2).
  destruct (decide (cc_d c1 c2 < eps)); [reflexivity|].
  destruct Hd as [Hd | Hd].
  - now rewrite (bool_decide_eq_true_2 _ Hd).
  - rewrite (bool_decide_eq_true_2 _ Hd). now rewrite orb_true_r.
Qed.

(** Past both distance guards, with a positive centre distance, no
    arithmetic is invalid and the result is decided by [h_sq] alone. *)
Lemma cci_guarded :
  0 < cc_d c1 c2 ->
  eps <= cc_d c1 c2 ->
  Rabs (r1 - r2) - eps <= cc_d c1 c2 <= r1 + r2 + eps ->
  circle_circle_intersections c1 r1 c2 r2 eps =
    let h_sq := if decide (Rabs (cc_h_sq c1 r1 c2 r2) < eps)
                then 0 else cc_h_sq c1 r1 c2 r2 in
    if decide (h_sq < 0) then Returns []
    else if decide (sqrt h_sq = 0) then Returns [cc_p0 c1 r1 c2 r2]
    else Returns [cc_p0 c1 r1 c2 r2 +v sqrt h_sq *v cc_perp c1 c2;
                  cc_p0 c1 r1 c2 r2 -v sqrt h_sq *v cc_perp c1 c2].
Proof.
  intros Hpos Heps [Hlo Hhi]. unfold circle_circle_intersections.
  fold (cc_d c1 c2).
  rewrite decide_False by lra.
  rewrite (bool_decide_eq_false_2 (cc_d c1 c2 > r1 + r2 + eps)) by lra.
  rewrite (bool_decide_eq_false_2 (cc_d c1 c2 < Rabs (r1 - r2) - eps))
    by lra.
  cbn [orb]. rewrite fdiv_ok by lra. run_outcome.
  fold (cc_a c1 r1 c2 r2). fold (cc_h_sq c1 r1 c2 r2).
  cbv zeta.
  destruct (decide (_ < 0)) as [Hneg | Hnn]; [reflexivity|].
  rewrite fsqrt_ok by lra. run_outcome.
  rewrite !vdiv_ok by lra. run_outcome.
  reflexivity.
Qed.

End Intersections.

Lemma dist_sym (p q : point) : dist p q = dist q p.
Proof.
  unfold dist, norm. f_equal. destruct p, q; simpl. ring.
Qed.

Lemma dist_self (c : point) : dist c c = 0.
Proof.
  unfold dist. apply norm_of_square; [lra | simpl; ring].
Qed.

Lemma cc_d_dist (c1 c2 : point) : Triangle.cc_d c1 c2 = dist c1 c2.
Proof. unfold Triangle.cc_d. now rewrite dist_sym. Qed.

(** With a positive tolerance every call returns: the division by [d] and
    the square root are reached only behind their guards. *)
Lemma cci_returns (c1 : point) (r1 : R) (c2 : point) (r2 eps : R) :
  0 < eps ->
  exists pts,
    Triangle.circle_circle_intersections c1 r1 c2 r2 eps = Returns pts
    /\ (length pts <= 2)%nat.
Proof.
  intros Heps.
  destruct (Rlt_dec (Triangle.cc_d c1 c2) eps) as [Hd | Hd].
  { exists []. split; [now apply cci_coincident | simpl; lia]. }
  destruct (Rlt_dec (r1 + r2 + eps) (Triangle.cc_d c1 c2)) as [Hfar | Hfar].
  { exists []. split; [apply cci_apart; left; lra | simpl; lia]. }
  destruct (Rlt_dec (Triangle.cc_d c1 c2) (Rabs (r1 - r2) - eps))
    as [Hin | Hin].
  { exists []. split; [apply cci_apart; now right | simpl; lia]. }
  rewrite cci_guarded by lra. cbv zeta.
  repeat match goal with |- context [decide ?P] => destruct (decide P) end;
    eexists; (split; [reflexivity | simpl; lia]).
Qed.

(** ** Geometry of the crossing points *)

Lemma cc_h_sq_factored (c1 : point) (r1 : R) (c2 : point) (r2 : R) :
  0 < Triangle.cc_d c1 c2 ->
  4 * Triangle.cc_d c1 c2 ^ 2 * Triangle.cc_h_sq c1 r1 c2 r2 =
    (r2 ^ 2 - (Triangle.cc_d c1 c2 - r1) ^ 2) * ((Triangle.cc_d c1 c2 + r1) ^ 2 - r2 ^ 2).
Proof.
  intros Hd. unfold Triangle.cc_h_sq, Triangle.cc_a. field. lra.
Qed.

Lemma cc_h_sq_nonneg (c1 : point) (r1 : R) (c2 : point) (r2 : R) :
  0 < Triangle.cc_d c1 c2 ->
  Rabs (r1 - r2) <= Triangle.cc_d c1 c2 <= r1 + r2 ->
  0 <= Triangle.cc_h_sq c1 r1 c2 r2.
Proof.
  intros Hd [Hlo Hhi].
  pose proof (cc_h_sq_factored c1 r1 c2 r2 Hd) as Hf.
  set (d := Triangle.cc_d c1 c2) in *. set (h := Triangle.cc_h_sq c1 r1 c2 r2) in *.
  assert (H1 : r1 - r2 <= d) by (pose proof (Rle_abs (r1 - r2)); lra).
  assert (H2 : r2 - r1 <= d)
    by (pose proof (Rle_abs (r2 - r1)); rewrite Rabs_minus_sym in Hlo; lra).
  assert (Ha : 0 <= r2 ^ 2 - (d - r1) ^ 2) by nra.
  assert (Hb : 0 <= (d + r1) ^ 2 - r2 ^ 2) by nra.
  assert (Hp : 0 <= 4 * d ^ 2 * h) by (rewrite Hf; now apply Rmult_le_pos).
  assert (Hd2 : 0 < 4 * d ^ 2) by nra.
  destruct (Rle_lt_dec 0 h) as [|Hneg]; [assumption|].
  exfalso. nra.
Qed.

(** The two crossing points [p0 + s*h*perp], s = 1 or -1, lie on both
    circles. *)
Section OnCircles.
Import Triangle.
Variables (c1 c2 : point) (r1 r2 : R).
Hypothesis Hc1 : planar c1.
Hypothesis Hc2 : planar c2.
Hypothesis Hd : 0 < cc_d c1 c2.
Hypothesis Hr1 : 0 <= r1.
Hypothesis Hr2 : 0 <= r2.
Hypothesis Hh : 0 <= cc_h_sq c1 r1 c2 r2.

Lemma cc_d_sqr :
  cc_d c1 c2 ^ 2 = (px c2 - px c1) ^ 2 + (py c2 - py c1) ^ 2.
Proof.
  unfold cc_d. rewrite norm_sqr. unfold planar in *. simpl.
  rewrite Hc1, Hc2. ring.
Qed.

Lemma cc_h_sqr :
  sqrt (cc_h_sq c1 r1 c2 r2) ^ 2 = r1 ^ 2 - cc_a c1 r1 c2 r2 ^ 2.
Proof.
  rewrite <- Rsqr_pow2, Rsqr_sqrt by assumption. reflexivity.
Qed.

Lemma cc_a_d :
  2 * cc_a c1 r1 c2 r2 * cc_d c1 c2 = r1 ^ 2 - r2 ^ 2 + cc_d c1 c2 ^ 2.
Proof. unfold cc_a. field. lra. Qed.

Lemma crossing_on_first (s : R) :
  s = 1 \/ s = -1 ->
  dist (cc_p0 c1 r1 c2 r2
        +v (s * sqrt (cc_h_sq c1 r1 c2 r2)) *v cc_perp c1 c2) c1 = r1.
Proof.
  intros Hs. unfold dist. apply norm_of_square; [assumption|].
  pose proof cc_d_sqr as Hdd. pose proof cc_h_sqr as Hhh.
  unfold cc_p0, cc_perp. cbn.
  set (d := cc_d c1 c2) in *. set (a := cc_a c1 r1 c2 r2) in *.
  set (h := sqrt (cc_h_sq c1 r1 c2 r2)) in *.
  unfold planar in *. rewrite Hc1, Hc2.
  assert (Hs2 : s ^ 2 = 1) by (destruct Hs; subst; ring).
  set (vx := px c2 - px c1) in *. set (vy := py c2 - py c1) in *.
  transitivity ((a ^ 2 + s ^ 2 * h ^ 2) * ((vx ^ 2 + vy ^ 2) / d ^ 2)).
  - field. lra.
  - rewrite <- Hdd, Hs2, Hhh. field. lra.
Qed.

Lemma crossing_on_second (s : R) :
  s = 1 \/ s = -1 ->
  dist (cc_p0 c1 r1 c2 r2
        +v (s * sqrt (cc_h_sq c1 r1 c2 r2)) *v cc_perp c1 c2) c2 = r2.
Proof.
  intros Hs. unfold dist. apply norm_of_square; [assumption|].
  pose proof cc_d_sqr as Hdd. pose proof cc_h_sqr as Hhh.
  pose proof cc_a_d as Had.
  unfold cc_p0, cc_perp. cbn.
  set (d := cc_d c1 c2) in *. set (a := cc_a c1 r1 c2 r2) in *.
  set (h := sqrt (cc_h_sq c1 r1 c2 r2)) in *.
  unfold planar in *. rewrite Hc1, Hc2.
  assert (Hs2 : s ^ 2 = 1) by (destruct Hs; subst; ring).
  set (vx := px c2 - px c1) in *. set (vy := py c2 - py c1) in *.
  transitivity (((a - d) ^ 2 + s ^ 2 * h ^ 2) * ((vx ^ 2 + vy ^ 2) / d ^ 2)).
  - replace (px c1) with (px c2 - vx) by (unfold vx; ring).
    replace (py c1) with (py c2 - vy) by (unfold vy; ring).
    field. lra.
  - rewrite <- Hdd, Hs2, Hhh.
    transitivity (r1 ^ 2 + d ^ 2 - 2 * a * d); [field; lra|].
    rewrite Had. ring.
Qed.
End OnCircles.

(** C1.  Two circles in the plane whose centre distance [d] satisfies
    |r1 - r2| + eps <= d <= r1 + r2 and d >= eps, and whose [h_sq] is not
    clamped, yield exactly two points, and each of them lies at distance
    [r1] from [c1] and [r2] from [c2] within [eps] (in real arithmetic the
    distances are exact, see [crossing_on_first], [crossing_on_second]). *)
Theorem crossing_points_on_both_circles
    (c1 : point) (r1 : R) (c2 : point) (r2 eps : R) :
  0 < eps -> planar c1 -> planar c2 ->
  Rabs (r1 - r2) + eps <= dist c1 c2 <= r1 + r2 ->
  eps <= dist c1 c2 ->
  ~ Rabs (Triangle.cc_h_sq c1 r1 c2 r2) < eps ->
  exists p1 p2,
    Triangle.circle_circle_intersections c1 r1 c2 r2 eps = Returns [p1; p2]
    /\ Forall (fun p => Rabs (dist p c1 - r1) < eps
                        /\ Rabs (dist p c2 - r2) < eps) [p1; p2].
Proof.
  intros Heps Hc1 Hc2 Hband Hd Hclamp. rewrite <- cc_d_dist in Hband, Hd.
  assert (Hpos : 0 < Triangle.cc_d c1 c2) by lra.
  assert (Hr : 0 < r1 /\ 0 < r2).
  { destruct Hband as [Hlo Hhi]. pose proof (Rle_abs (r1 - r2)).
    pose proof (Rle_abs (r2 - r1)) as H'.
    rewrite Rabs_minus_sym in H'. lra. }
  destruct Hr as [Hr1 Hr2].
  assert (Hh : 0 <= Triangle.cc_h_sq c1 r1 c2 r2)
    by (apply cc_h_sq_nonneg; lra).
  assert (Hh' : eps <= Triangle.cc_h_sq c1 r1 c2 r2).
  { rewrite Rabs_right in Hclamp by lra. lra. }
  rewrite cci_guarded by lra. cbv zeta.
  rewrite (decide_False (P := Rabs _ < eps)) by assumption.
  rewrite (decide_False (P := _ < 0)) by lra.
  rewrite (decide_False (P := sqrt _ = 0)).
  2:{ sqrt_nonzero. }
  do 2 eexists. split; [reflexivity|].
  rewrite vsub_as_vadd, vadd_as_vadd.
  repeat constructor.
  all: first [ rewrite crossing_on_first by (auto; lra)
             | rewrite crossing_on_second by (auto; lra) ].
  all: rewrite Rminus_diag, Rabs_R0; assumption.
Qed.

Lemma crossing_points_on_both_circles_witness :
  exists p1 p2,
    Triangle.circle_circle_intersections
      (mkpoint (-2) 0 0) 3 (mkpoint 2 0 0) 3 Triangle.default_eps
      = Returns [p1; p2]
    /\ Forall (fun p => Rabs (dist p (mkpoint (-2) 0 0) - 3)
                          < Triangle.default_eps
                        /\ Rabs (dist p (mkpoint 2 0 0) - 3)
                          < Triangle.default_eps) [p1; p2].
Proof.
  assert (Hd : dist (mkpoint (-2) 0 0) (mkpoint 2 0 0) = 4).
  { unfold dist. apply norm_of_square; [lra | simpl; ring]. }
  assert (Hh : Triangle.cc_h_sq (mkpoint (-2) 0 0) 3 (mkpoint 2 0 0) 3 = 5).
  { unfold Triangle.cc_h_sq, Triangle.cc_a. rewrite cc_d_dist, Hd. field. }
  apply crossing_points_on_both_circles; unfold Triangle.default_eps.
  - lra.
  - reflexivity.
  - reflexivity.
  - rewrite Hd, Rminus_diag, Rabs_R0. lra.
  - rewrite Hd. lra.
  - rewrite Hh, Rabs_right by lra. lra.
Defined.

(** C2.  Circles that are disjoint ([d > r1 + r2 + eps]) or nested
    ([d < |r1 - r2| - eps]) yield the empty result. *)
Theorem apart_or_contained_is_empty
    (c1 : point) (r1 : R) (c2 : point) (r2 eps : R) :
  dist c1 c2 > r1 + r2 + eps \/ dist c1 c2 < Rabs (r1 - r2) - eps ->
  Triangle.circle_circle_intersections c1 r1 c2 r2 eps = Returns [].
Proof. rewrite <- cc_d_dist. apply cci_apart. Qed.

Lemma apart_or_contained_is_empty_witness :
  Triangle.circle_circle_intersections
    (mkpoint (-2) 0 0) 3 (mkpoint 5 0 0) 3 Triangle.default_eps = Returns []
  /\ Triangle.circle_circle_intersections
    (mkpoint 0 0 0) 5 (mkpoint 1 0 0) 3 Triangle.default_eps = Returns [].
Proof.
  split; apply apart_or_contained_is_empty; unfold Triangle.default_eps.
  - left. replace (dist _ _) with 7; [lra|].
    symmetry. apply norm_of_square; [lra | simpl; ring].
  - right. replace (dist _ _) with 1.
    + replace (5 - 3) with 2 by ring. rewrite Rabs_right; lra.
    + symmetry. apply norm_of_square; [lra | simpl; ring].
Defined.

(** C3.  With a positive tolerance: centres less than [eps] apart yield
    the empty result whatever the radii, two identical circles yield the
    empty result, and every call returns a list of points, none runs into
    a division by zero or the root of a negative number.  (A centre
    distance below [eps] already forces [eps] to be positive.) *)
Theorem coincident_centers_is_empty
    (c1 : point) (r1 : R) (c2 : point) (r2 eps : R) :
  0 < eps ->
  (dist c1 c2 < eps ->
   Triangle.circle_circle_intersections c1 r1 c2 r2 eps = Returns [])
  /\ Triangle.circle_circle_intersections c1 r1 c1 r1 eps = Returns []
  /\ exists pts,
       Triangle.circle_circle_intersections c1 r1 c2 r2 eps = Returns pts.
Proof.
  intros Heps. repeat split.
  - rewrite <- cc_d_dist. apply cci_coincident.
  - apply cci_coincident. rewrite cc_d_dist, dist_self. exact Heps.
  - destruct (cci_returns c1 r1 c2 r2 eps Heps) as (pts & Hpts & _).
    now exists pts.
Qed.

Lemma coincident_centers_is_empty_witness :
  Triangle.circle_circle_intersections
    (mkpoint 1 2 0) 3 (mkpoint 1 2 0) 5 Triangle.default_eps = Returns []
  /\ Triangle.circle_circle_intersections
    (mkpoint 1 2 0) 3 (mkpoint 1 2 0) 3 Triangle.default_eps = Returns [].
Proof.
  assert (Heps : 0 < Triangle.default_eps)
    by (unfold Triangle.default_eps; lra).
  destruct (coincident_centers_is_empty
              (mkpoint 1 2 0) 3 (mkpoint 1 2 0) 5 Triangle.default_eps Heps)
    as (Hnear & Hsame & _).
  split; [apply Hnear | exact Hsame].
  rewrite dist_self. exact Heps.
Defined.

(** C9.  Past both distance guards, a computed [h_sq] with
    0 < h_sq < eps is clamped to zero: the result is the single point
    [p0], as for tangent circles, although the circles cross twice. *)
Theorem small_positive_h_sq_is_clamped
    (c1 : point) (r1 : R) (c2 : point) (r2 eps : R) :
  eps <= dist c1 c2 ->
  Rabs (r1 - r2) - eps <= dist c1 c2 <= r1 + r2 + eps ->
  0 < Triangle.cc_h_sq c1 r1 c2 r2 < eps ->
  Triangle.circle_circle_intersections c1 r1 c2 r2 eps
    = Returns [Triangle.cc_p0 c1 r1 c2 r2].
Proof.
  rewrite <- cc_d_dist. intros Hd Hband [Hh0 Hh1].
  rewrite cci_guarded by lra. cbv zeta.
  rewrite (decide_True (P := Rabs _ < eps)) by (rewrite Rabs_right; lra).
  rewrite (decide_False (P := 0 < 0)) by lra.
  rewrite (decide_True (P := sqrt 0 = 0)) by apply sqrt_0.
  reflexivity.
Qed.

Lemma small_positive_h_sq_is_clamped_witness :
  Triangle.circle_circle_intersections
    (mkpoint 0 0 0) 1 (mkpoint (2 - 1 / 1000000000) 0 0) 1
    Triangle.default_eps
  = Returns [Triangle.cc_p0 (mkpoint 0 0 0) 1
                            (mkpoint (2 - 1 / 1000000000) 0 0) 1].
Proof.
  assert (Hd : dist (mkpoint 0 0 0) (mkpoint (2 - 1 / 1000000000) 0 0)
               = 2 - 1 / 1000000000).
  { rewrite dist_sym. unfold dist. apply norm_of_square; [lra | simpl; ring]. }
  assert (Hh : Triangle.cc_h_sq (mkpoint 0 0 0) 1
                 (mkpoint (2 - 1 / 1000000000) 0 0) 1
               = 3999999999 / 4000000000000000000).
  { unfold Triangle.cc_h_sq, Triangle.cc_a. rewrite cc_d_dist, Hd. field. }
  apply small_positive_h_sq_is_clamped; unfold Triangle.default_eps.
  - rewrite Hd. lra.
  - rewrite Hd, Rminus_diag, Rabs_R0. lra.
  - rewrite Hh. lra.
Defined.

(** C5.  The circles of radius 3 centred at (-2, 0, 0) and (2, 0, 0)
    yield the points (0, sqrt 5, 0) and (0, - sqrt 5, 0), in that order. *)
Theorem capsule_circles_cross_at_sqrt5 :
  Triangle.circle_circle_intersections
    (mkpoint (-2) 0 0) 3 (mkpoint 2 0 0) 3 Triangle.default_eps
  = Returns [mkpoint 0 (sqrt 5) 0; mkpoint 0 (- sqrt 5) 0].
Proof.
  set (c1 := mkpoint (-2) 0 0). set (c2 := mkpoint 2 0 0).
  assert (Hd : Triangle.cc_d c1 c2 = 4).
  { unfold Triangle.cc_d. apply norm_of_square; [lra | simpl; ring]. }
  assert (Ha : Triangle.cc_a c1 3 c2 3 = 2).
  { unfold Triangle.cc_a. rewrite Hd. field. }
  assert (Hh : Triangle.cc_h_sq c1 3 c2 3 = 5).
  { unfold Triangle.cc_h_sq. rewrite Ha. ring. }
  unfold Triangle.default_eps.
  rewrite cci_guarded.
  2:{ rewrite Hd. lra. }
  2:{ rewrite Hd. lra. }
  2:{ rewrite Hd, Rminus_diag, Rabs_R0. lra. }
  cbv zeta. rewrite Hh.
  rewrite (decide_False (P := Rabs 5 < _)) by (rewrite Rabs_right; lra).
  rewrite (decide_False (P := 5 < 0)) by lra.
  rewrite (decide_False (P := sqrt 5 = 0)).
  2:{ sqrt_nonzero. }
  unfold Triangle.cc_p0, Triangle.cc_perp. rewrite Ha, Hd.
  do 3 f_equal; apply point_eq; simpl; field.
Qed.

(** A positive [h_sq] between circles of positive radius puts the centre
    distance strictly inside the band of the second guard. *)
Lemma cc_h_sq_pos_band (c1 : point) (r1 : R) (c2 : point) (r2 : R) :
  0 < Triangle.cc_d c1 c2 -> 0 < r1 -> 0 < r2 ->
  0 < Triangle.cc_h_sq c1 r1 c2 r2 ->
  Rabs (r1 - r2) < Triangle.cc_d c1 c2 < r1 + r2.
Proof.
  intros Hd Hr1 Hr2 Hh.
  pose proof (cc_h_sq_factored c1 r1 c2 r2 Hd) as Hf.
  set (d := Triangle.cc_d c1 c2) in *.
  set (h := Triangle.cc_h_sq c1 r1 c2 r2) in *.
  assert (Hp : 0 < (r2 ^ 2 - (d - r1) ^ 2) * ((d + r1) ^ 2 - r2 ^ 2))
    by (rewrite <- Hf; apply Rmult_lt_0_compat; [nra | assumption]).
  assert (Hb : 0 < (d + r1) ^ 2 - r2 ^ 2).
  { destruct (Rlt_le_dec 0 ((d + r1) ^ 2 - r2 ^ 2)) as [|Hneg];
      [assumption|].
    assert (Ha : r2 ^ 2 - (d - r1) ^ 2 < 0) by nra.
    assert (d + r1 <= r2) by nra.
    exfalso. nra. }
  assert (Ha : 0 < r2 ^ 2 - (d - r1) ^ 2) by nra.
  assert (H1 : d - r1 < r2) by nra.
  assert (H2 : r1 - d < r2) by nra.
  assert (H3 : r2 < d + r1) by nra.
  split; [|lra]. unfold Rabs. destruct (Rcase_abs (r1 - r2)); lra.
Qed.

(** The inline computation of the capsule scene, past its two guards. *)
Lemma intersection_points_guarded (c1 : point) (r1 : R) (c2 : point) (r2 : R) :
  0 < Triangle.cc_d c1 c2 ->
  0 <= Triangle.cc_h_sq c1 r1 c2 r2 ->
  Capsule.intersection_points c1 r1 c2 r2 =
    let d := Triangle.cc_d c1 c2 in
    let a := Triangle.cc_a c1 r1 c2 r2 in
    let h := sqrt (Triangle.cc_h_sq c1 r1 c2 r2) in
    let x0 := px c1 + a * (px c2 - px c1) / d in
    let y0 := py c1 + a * (py c2 - py c1) / d in
    let rx := - (py c2 - py c1) * (h / d) in
    let ry := (px c2 - px c1) * (h / d) in
    Returns (Some (mkpoint (x0 + rx) (y0 + ry) 0,
                   mkpoint (x0 - rx) (y0 - ry) 0)).
Proof.
  intros Hd Hh. unfold Capsule.intersection_points.
  fold (Triangle.cc_d c1 c2).
  rewrite decide_False by lra.
  rewrite fdiv_ok by lra. run_outcome.
  fold (Triangle.cc_a c1 r1 c2 r2). fold (Triangle.cc_h_sq c1 r1 c2 r2).
  rewrite (bool_decide_eq_false_2 (Triangle.cc_h_sq c1 r1 c2 r2 < 0)) by lra.
  cbn [andb]. rewrite decide_False by lra.
  rewrite fsqrt_ok by assumption. run_outcome.
  rewrite !fdiv_ok by lra. reflexivity.
Qed.

(** The inline computation never performs an invalid operation. *)
Lemma intersection_points_returns (c1 : point) (r1 : R) (c2 : point) (r2 : R) :
  exists res, Capsule.intersection_points c1 r1 c2 r2 = Returns res.
Proof.
  unfold Capsule.intersection_points.
  destruct (decide (norm (c2 -v c1) = 0)) as [|Hd]; [now eexists|].
  rewrite fdiv_ok by lra. run_outcome.
  match goal with |- context [decide ?P] => destruct (decide P) end;
    [now eexists|].
  rewrite fsqrt_ok by lra. run_outcome.
  rewrite !fdiv_ok by assumption. now eexists.
Qed.

(** C10.  For circles of positive radius in the plane with [d >= eps]
    and [h_sq >= eps], the inline computation of the capsule scene and
    [circle_circle_intersections] compute the same two points in the same
    order: [p0 + h * perp] first, [p0 - h * perp] second. *)
Theorem inline_and_function_agree
    (c1 : point) (r1 : R) (c2 : point) (r2 eps : R) :
  0 < eps -> planar c1 -> planar c2 -> 0 < r1 -> 0 < r2 ->
  eps <= dist c1 c2 ->
  eps <= Triangle.cc_h_sq c1 r1 c2 r2 ->
  let p0 := Triangle.cc_p0 c1 r1 c2 r2 in
  let h := sqrt (Triangle.cc_h_sq c1 r1 c2 r2) in
  let perp := Triangle.cc_perp c1 c2 in
  Capsule.intersection_points c1 r1 c2 r2
    = Returns (Some (p0 +v h *v perp, p0 -v h *v perp))
  /\ Triangle.circle_circle_intersections c1 r1 c2 r2 eps
    = Returns [p0 +v h *v perp; p0 -v h *v perp].
Proof.
  intros Heps Hc1 Hc2 Hr1 Hr2 Hd Hh p0 h perp. rewrite <- cc_d_dist in Hd.
  assert (Hpos : 0 < Triangle.cc_d c1 c2) by lra.
  pose proof (cc_h_sq_pos_band c1 r1 c2 r2 Hpos Hr1 Hr2 ltac:(lra)) as Hband.
  split.
  - rewrite intersection_points_guarded by lra. cbv zeta.
    unfold p0, h, perp, Triangle.cc_p0, Triangle.cc_perp.
    unfold planar in *.
    do 3 f_equal; apply point_eq; simpl; rewrite ?Hc1, ?Hc2; field; lra.
  - rewrite cci_guarded by lra. cbv zeta.
    rewrite (decide_False (P := Rabs _ < eps)) by (rewrite Rabs_right; lra).
    rewrite (decide_False (P := _ < 0)) by lra.
    rewrite (decide_False (P := sqrt _ = 0)).
    2:{ sqrt_nonzero. }
    reflexivity.
Qed.

Lemma inline_and_function_agree_witness :
  exists p1 p2,
    Capsule.intersection_points (mkpoint (-2) 0 0) 3 (mkpoint 2 0 0) 3
      = Returns (Some (p1, p2))
    /\ Triangle.circle_circle_intersections
         (mkpoint (-2) 0 0) 3 (mkpoint 2 0 0) 3 Triangle.default_eps
      = Returns [p1; p2].
Proof.
  do 2 eexists.
  assert (Hd : dist (mkpoint (-2) 0 0) (mkpoint 2 0 0) = 4).
  { unfold dist. apply norm_of_square; [lra | simpl; ring]. }
  assert (Hh : Triangle.cc_h_sq (mkpoint (-2) 0 0) 3 (mkpoint 2 0 0) 3 = 5).
  { unfold Triangle.cc_h_sq, Triangle.cc_a. rewrite cc_d_dist, Hd. field. }
  apply inline_and_function_agree; unfold Triangle.default_eps.
  - lra.
  - reflexivity.
  - reflexivity.
  - lra.
  - lra.
  - rewrite Hd. lra.
  - rewrite Hh. lra.
Defined.

(** ** Angles *)

Section Angles.
Import Capsule.

Lemma TAU_pos : 0 < TAU.
Proof. unfold TAU. pose proof PI_RGT_0. lra. Qed.

Lemma float_mod_range (x m : R) : 0 < m -> 0 <= float_mod x m < m.
Proof.
  intros Hm. unfold float_mod.
  destruct (Zfloor_bound (x / m)) as [Hlo Hhi].
  set (k := IZR (Zfloor (x / m))) in *.
  assert (Hx : x = m * (x / m)) by (field; lra).
  split; nra.
Qed.

Lemma norm_pos_floor (a : R) :
  norm_pos a = a - TAU * IZR (Zfloor (a / TAU)).
Proof.
  unfold norm_pos. cbv zeta.
  pose proof (float_mod_range a TAU TAU_pos).
  rewrite decide_False by lra. reflexivity.
Qed.

Lemma norm_pos_range (a : R) : 0 <= norm_pos a < TAU.
Proof.
  rewrite norm_pos_floor. apply (float_mod_range a TAU TAU_pos).
Qed.

Lemma norm_pos_id (a : R) :
  0 <= a < TAU -> norm_pos a = a.
Proof.
  intros [Hlo Hhi]. rewrite norm_pos_floor.
  pose proof TAU_pos as Ht.
  rewrite (Zfloor_eq 0 (a / TAU)); [ring|].
  split.
  - apply Rmult_le_pos; [assumption|]. left. now apply Rinv_0_lt_compat.
  - apply (Rmult_lt_reg_r TAU); [assumption|].
    replace (a / TAU * TAU) with a by (field; lra). lra.
Qed.

Lemma cos_turns (x : R) (k : Z) : cos (x + TAU * IZR k) = cos x.
Proof.
  unfold TAU. destruct k as [|n|n].
  - f_equal. lra.
  - rewrite <- (cos_period x (Pos.to_nat n)). f_equal.
    rewrite INR_IZR_INZ, positive_nat_Z. ring.
  - rewrite <- (cos_period (x + 2 * PI * IZR (Z.neg n)) (Pos.to_nat n)).
    f_equal. rewrite INR_IZR_INZ, positive_nat_Z.
    change (Z.neg n) with (- Z.pos n)%Z. rewrite opp_IZR. ring.
Qed.

Lemma sin_turns (x : R) (k : Z) : sin (x + TAU * IZR k) = sin x.
Proof.
  unfold TAU. destruct k as [|n|n].
  - f_equal. lra.
  - rewrite <- (sin_period x (Pos.to_nat n)). f_equal.
    rewrite INR_IZR_INZ, positive_nat_Z. ring.
  - rewrite <- (sin_period (x + 2 * PI * IZR (Z.neg n)) (Pos.to_nat n)).
    f_equal. rewrite INR_IZR_INZ, positive_nat_Z.
    change (Z.neg n) with (- Z.pos n)%Z. rewrite opp_IZR. ring.
Qed.

Lemma cos_norm_pos (a : R) : cos (norm_pos a) = cos a.
Proof.
  rewrite norm_pos_floor.
  replace (a - TAU * IZR (Zfloor (a / TAU)))
    with (a + TAU * IZR (- Zfloor (a / TAU))) by (rewrite opp_IZR; ring).
  apply cos_turns.
Qed.

Lemma sin_norm_pos (a : R) : sin (norm_pos a) = sin a.
Proof.
  rewrite norm_pos_floor.
  replace (a - TAU * IZR (Zfloor (a / TAU)))
    with (a + TAU * IZR (- Zfloor (a / TAU))) by (rewrite opp_IZR; ring).
  apply sin_turns.
Qed.

Lemma cos_half_turn_back (x : R) : cos (x - PI) = - cos x.
Proof. rewrite cos_minus, cos_PI, sin_PI. ring. Qed.

Lemma sin_half_turn_back (x : R) : sin (x - PI) = - sin x.
Proof. rewrite sin_minus, cos_PI, sin_PI. ring. Qed.

(** [arctan2 y x] is the polar angle of (x, y). *)
Lemma sqrt_one_plus_sqr (x y : R) :
  0 < x -> sqrt (1 + (y / x)²) = sqrt (x ^ 2 + y ^ 2) / x.
Proof.
  intros Hx.
  assert (Hs : 0 <= x ^ 2 + y ^ 2) by nra.
  apply sqrt_lem_1.
  - unfold Rsqr. nra.
  - pose proof (sqrt_pos (x ^ 2 + y ^ 2)) as Hp.
    apply Rmult_le_pos; [assumption|]. left. now apply Rinv_0_lt_compat.
  - unfold Rsqr.
    transitivity ((sqrt (x ^ 2 + y ^ 2) * sqrt (x ^ 2 + y ^ 2)) / (x * x)).
    + field. lra.
    + rewrite sqrt_sqrt by assumption. field. lra.
Qed.

Lemma polar_atan (x y : R) :
  x <> 0 ->
  let rho := sqrt (x ^ 2 + y ^ 2) in
  rho * cos (atan (y / x)) = Rabs x
  /\ rho * sin (atan (y / x)) = Rabs x * (y / x).
Proof.
  intros Hx rho.
  assert (Hrho : 0 < rho).
  { apply sqrt_lt_R0. nra. }
  assert (Hroot : sqrt (1 + (y / x)²) = rho / Rabs x).
  { destruct (Rlt_dec 0 x) as [Hpos | Hneg].
    - rewrite Rabs_right by lra. now apply sqrt_one_plus_sqr.
    - rewrite Rabs_left by lra.
      replace ((y / x)²) with ((- y / - x)²) by (unfold Rsqr; field; lra).
      rewrite sqrt_one_plus_sqr by lra. unfold rho.
      do 2 f_equal. ring. }
  assert (Habs : 0 < Rabs x) by now apply Rabs_pos_lt.
  rewrite cos_atan, sin_atan, Hroot. split; field; lra.
Qed.

Lemma polar_arctan2 (x y : R) :
  let rho := sqrt (x ^ 2 + y ^ 2) in
  rho * cos (arctan2 y x) = x /\ rho * sin (arctan2 y x) = y.
Proof.
  intros rho. unfold arctan2.
  destruct (decide (0 < x)) as [Hpos | Hnpos].
  { destruct (polar_atan x y ltac:(lra)) as [Hc Hs]. fold rho in Hc, Hs.
    rewrite Hc, Hs, Rabs_right by lra. split; [reflexivity | field; lra]. }
  destruct (decide (x < 0)) as [Hneg | Hnneg].
  { destruct (polar_atan x y ltac:(lra)) as [Hc Hs]. fold rho in Hc, Hs.
    rewrite Rabs_left in Hc, Hs by lra.
    destruct (decide (y < 0)).
    - rewrite cos_half_turn_back, sin_half_turn_back.
      split; [lra|]. rewrite Ropp_mult_distr_r_reverse, Hs. field. lra.
    - rewrite neg_cos, neg_sin.
      split; [lra|]. rewrite Ropp_mult_distr_r_reverse, Hs. field. lra. }
  assert (Hx : x = 0) by lra. subst x.
  assert (Hrho : rho = Rabs y).
  { unfold rho. replace (0 ^ 2 + y ^ 2) with (y²) by (unfold Rsqr; ring).
    apply sqrt_Rsqr_abs. }
  rewrite Hrho.
  destruct (decide (0 < y)).
  { rewrite cos_PI2, sin_PI2, Rabs_right by lra. lra. }
  destruct (decide (y < 0)).
  { rewrite cos_neg, sin_neg, cos_PI2, sin_PI2, Rabs_left by lra. lra. }
  replace y with 0 by lra. rewrite Rabs_R0. lra.
Qed.

End Angles.

(** ** The arc returned by [get_arc_path] *)

Section ArcPath.
Import Capsule.
Variables (center : point) (radius : R).
Variables (p_start p_end outward_vec : point).

Lemma get_arc_path_fields :
  get_arc_path center radius p_start p_end outward_vec =
    mkArc radius center (angle_of center p_start)
      (if decide (dot (mid_pt_ccw center radius p_start p_end -v center)
                      outward_vec > 0)
       then ccw_sweep center p_start p_end
       else ccw_sweep center p_start p_end - TAU)
      60.
Proof. reflexivity. Qed.

Lemma ccw_sweep_range : 0 <= ccw_sweep center p_start p_end < TAU.
Proof.
  unfold ccw_sweep, angle_of. cbv zeta.
  pose proof (norm_pos_range
                (arctan2 (py (p_end -v center)) (px (p_end -v center)))).
  pose proof (norm_pos_range
                (arctan2 (py (p_start -v center)) (px (p_start -v center)))).
  destruct (decide (_ < 0)); lra.
Qed.

(** The counter-clockwise sweep ends at the angle of [p_end], up to whole
    turns. *)
Lemma ccw_sweep_end :
  exists k : Z,
    angle_of center p_start + ccw_sweep center p_start p_end
    = angle_of center p_end + TAU * IZR k.
Proof.
  unfold ccw_sweep. cbv zeta. destruct (decide (_ < 0)).
  - exists 1%Z. ring.
  - exists 0%Z. ring.
Qed.

Lemma mid_pt_ccw_circle_point :
  mid_pt_ccw center radius p_start p_end =
    circle_point center radius
      (angle_of center p_start + ccw_sweep center p_start p_end / 2).
Proof.
  unfold mid_pt_ccw, circle_point. cbv zeta.
  now rewrite cos_norm_pos, sin_norm_pos.
Qed.

Lemma circle_point_opposite (theta : R) :
  circle_point center radius (theta - PI) -v center
  = vneg (circle_point center radius theta -v center).
Proof.
  unfold circle_point. apply point_eq; simpl;
    rewrite ?cos_half_turn_back, ?sin_half_turn_back; ring.
Qed.

Lemma dot_vneg_l (u w : point) : dot (vneg u) w = - dot u w.
Proof. unfold dot, vneg. simpl. ring. Qed.

End ArcPath.

(** C4.  The returned arc lies on the given circle (same center, same
    radius), and its midpoint, the point of that circle at the angle
    start + sweep / 2, taken from the center, has a non-negative dot product
    with the outward direction; and when the counter-clockwise midpoint is
    exactly perpendicular to the outward direction, the complementary sweep
    [sweep - TAU], which is negative, is the one selected. *)
Theorem returned_arc_faces_outward
    (center : point) (radius : R) (p_start p_end outward_vec : point) :
  let arc := Capsule.get_arc_path center radius p_start p_end outward_vec in
  let dot_ccw :=
    dot (Capsule.mid_pt_ccw center radius p_start p_end -v center)
        outward_vec in
  (Capsule.arc_center arc = center /\ Capsule.radius arc = radius)
  /\ 0 <= dot (Capsule.circle_point center radius
                 (Capsule.start_angle arc + Capsule.angle arc / 2)
               -v center) outward_vec
  /\ (dot_ccw = 0 ->
      Capsule.angle arc = Capsule.ccw_sweep center p_start p_end - Capsule.TAU
      /\ Capsule.angle arc < 0).
Proof.
  intros arc dot_ccw. unfold arc.
  rewrite get_arc_path_fields. cbn [Capsule.arc_center Capsule.radius
    Capsule.start_angle Capsule.angle].
  fold dot_ccw. split; [now split|].
  pose proof (ccw_sweep_range center p_start p_end) as Hrange.
  destruct (decide (dot_ccw > 0)) as [Hout | Hin].
  - split; [|intros H0; lra].
    rewrite <- mid_pt_ccw_circle_point. fold dot_ccw. lra.
  - split; [|intros _; split; [reflexivity | lra]].
    replace (Capsule.angle_of center p_start
             + (Capsule.ccw_sweep center p_start p_end - Capsule.TAU) / 2)
      with (Capsule.angle_of center p_start
            + Capsule.ccw_sweep center p_start p_end / 2 - PI)
      by (unfold Capsule.TAU; field).
    rewrite circle_point_opposite, dot_vneg_l, <- mid_pt_ccw_circle_point.
    fold dot_ccw. lra.
Qed.

Lemma returned_arc_faces_outward_witness :
  0 <= dot (Capsule.circle_point (mkpoint 0 0 0) 1
              (Capsule.start_angle
                 (Capsule.get_arc_path (mkpoint 0 0 0) 1 (mkpoint 1 0 0)
                    (mkpoint (-1) 0 0) (mkpoint 1 0 0))
               + Capsule.angle
                   (Capsule.get_arc_path (mkpoint 0 0 0) 1 (mkpoint 1 0 0)
                      (mkpoint (-1) 0 0) (mkpoint 1 0 0)) / 2)
            -v mkpoint 0 0 0) (mkpoint 1 0 0)
  /\ Capsule.angle (Capsule.get_arc_path (mkpoint 0 0 0) 1 (mkpoint 1 0 0)
                      (mkpoint (-1) 0 0) (mkpoint 1 0 0))
     = Capsule.ccw_sweep (mkpoint 0 0 0) (mkpoint 1 0 0) (mkpoint (-1) 0 0)
       - Capsule.TAU
  /\ Capsule.angle (Capsule.get_arc_path (mkpoint 0 0 0) 1 (mkpoint 1 0 0)
                      (mkpoint (-1) 0 0) (mkpoint 1 0 0)) < 0.
Proof.
  destruct (returned_arc_faces_outward (mkpoint 0 0 0) 1 (mkpoint 1 0 0)
              (mkpoint (-1) 0 0) (mkpoint 1 0 0)) as (_ & Hdot & Hzero).
  split; [exact Hdot|]. apply Hzero.
  assert (Hs : Capsule.angle_of (mkpoint 0 0 0) (mkpoint 1 0 0) = 0).
  { unfold Capsule.angle_of, Capsule.arctan2. simpl.
    rewrite decide_True by lra.
    replace (_ / _) with 0 by (field; lra).
    rewrite atan_0. apply norm_pos_id. pose proof TAU_pos. lra. }
  assert (He : Capsule.angle_of (mkpoint 0 0 0) (mkpoint (-1) 0 0) = PI).
  { unfold Capsule.angle_of, Capsule.arctan2. simpl.
    rewrite decide_False by lra. rewrite decide_True by lra.
    rewrite decide_False by lra.
    replace (_ / _) with 0 by (field; lra).
    rewrite atan_0, Rplus_0_l. apply norm_pos_id.
    unfold Capsule.TAU. pose proof PI_RGT_0. lra. }
  rewrite mid_pt_ccw_circle_point. unfold Capsule.ccw_sweep.
  rewrite Hs, He. cbv zeta.
  rewrite decide_False by (pose proof PI_RGT_0; lra).
  unfold Capsule.circle_point, dot. simpl.
  replace (0 + (PI - 0) / 2) with (PI / 2) by field.
  rewrite cos_PI2. ring.
Defined.

Section OnCircle.
Import Capsule.
Variables (center : point) (radius : R).

Lemma circle_point_angle_of (p : point) :
  on_circle center radius p ->
  circle_point center radius (angle_of center p) = p.
Proof.
  intros [Hz Hr]. unfold circle_point, angle_of.
  rewrite cos_norm_pos, sin_norm_pos.
  destruct (polar_arctan2 (px (p -v center)) (py (p -v center)))
    as [Hc Hs].
  assert (Hrho : sqrt (px (p -v center) ^ 2 + py (p -v center) ^ 2)
                 = radius).
  { rewrite <- Hr. unfold dist, norm. f_equal. simpl. rewrite Hz. ring. }
  rewrite Hrho in Hc, Hs.
  apply point_eq; cbn [px py pz vadd vscale].
  - rewrite Hc. simpl. ring.
  - rewrite Hs. simpl. ring.
  - lra.
Qed.

Lemma circle_point_turns (theta : R) (k : Z) :
  circle_point center radius (theta + TAU * IZR k)
  = circle_point center radius theta.
Proof. unfold circle_point. now rewrite cos_turns, sin_turns. Qed.

End OnCircle.

(** ** Snapping *)

Section Snap.
Context {A : Type}.
Implicit Types (pts : list A) (p q : A).

Lemma length_snap pts p q : length (Capsule.snap pts p q) = length pts.
Proof.
  unfold Capsule.snap. destruct (decide _); [|reflexivity].
  cbv zeta. now rewrite !length_insert.
Qed.

Lemma last_snap pts p q :
  (1 <= length pts)%nat -> last (Capsule.snap pts p q) = Some q.
Proof.
  intros Hlen. unfold Capsule.snap. rewrite decide_True by lia. cbv zeta.
  rewrite last_lookup, length_insert.
  replace (Init.Nat.pred (length (<[0%nat:=p]> pts)))
    with (length (<[0%nat:=p]> pts) - 1)%nat by lia.
  apply list_lookup_insert_eq. rewrite length_insert. lia.
Qed.

Lemma head_snap pts p q :
  (2 <= length pts)%nat -> head (Capsule.snap pts p q) = Some p.
Proof.
  intros Hlen. unfold Capsule.snap. rewrite decide_True by lia. cbv zeta.
  rewrite length_insert, head_lookup.
  rewrite list_lookup_insert_ne by lia.
  apply list_lookup_insert_eq. lia.
Qed.

(** A segment of one point keeps only the value written last. *)
Lemma snap_singleton (x p q : A) : Capsule.snap [x] p q = [q].
Proof. reflexivity. Qed.

Lemma snap_nil p q : Capsule.snap (@nil A) p q = [].
Proof. reflexivity. Qed.

End Snap.

(** ** Sampled points of an arc *)

Section ArcPoints.
Import Capsule.
Variable arc : Arc.
Hypothesis Hn : (1 <= num_components arc)%nat.

Lemma length_arc_points :
  length (arc_points arc) = S (num_components arc).
Proof. unfold arc_points. now rewrite length_fmap, length_seq. Qed.

Lemma head_arc_points :
  head (arc_points arc)
  = Some (circle_point (arc_center arc) (radius arc) (start_angle arc)).
Proof.
  unfold arc_points. cbn [seq fmap list_fmap head].
  do 2 f_equal. simpl INR. unfold Rdiv. ring.
Qed.

Lemma last_arc_points :
  last (arc_points arc)
  = Some (circle_point (arc_center arc) (radius arc)
            (start_angle arc + angle arc)).
Proof.
  rewrite last_lookup, length_arc_points. cbn [Init.Nat.pred].
  unfold arc_points. rewrite list_lookup_fmap, lookup_seq_lt by lia.
  cbn [fmap option_fmap option_map Nat.add]. do 2 f_equal.
  assert (INR (num_components arc) <> 0) by (apply not_0_INR; lia).
  field. assumption.
Qed.
End ArcPoints.

(** C6.  For [p_start] and [p_end] on the circle, the point of the circle
    at the start angle of the returned arc is [p_start] and the point at
    start angle + sweep is [p_end]; hence the sampled points begin at
    [p_start] and end at [p_end] (exactly, so within every positive
    epsilon), and they still do after the end points are snapped. *)
Theorem arc_runs_from_start_to_end
    (center : point) (radius : R) (p_start p_end outward_vec : point) :
  Capsule.on_circle center radius p_start ->
  Capsule.on_circle center radius p_end ->
  let arc := Capsule.get_arc_path center radius p_start p_end outward_vec in
  let pts := Capsule.arc_points arc in
  (Capsule.circle_point center radius (Capsule.start_angle arc) = p_start
   /\ Capsule.circle_point center radius
        (Capsule.start_angle arc + Capsule.angle arc) = p_end)
  /\ (head pts = Some p_start /\ last pts = Some p_end)
  /\ (forall eps, 0 < eps ->
      exists first_pt last_pt,
        head pts = Some first_pt /\ last pts = Some last_pt
        /\ dist first_pt p_start < eps /\ dist last_pt p_end < eps)
  /\ (head (Capsule.snap pts p_start p_end) = Some p_start
      /\ last (Capsule.snap pts p_start p_end) = Some p_end).
Proof.
  intros Hstart Hend arc pts.
  assert (Hs : Capsule.circle_point center radius (Capsule.start_angle arc)
               = p_start).
  { unfold arc. rewrite get_arc_path_fields. simpl.
    now apply circle_point_angle_of. }
  assert (He : Capsule.circle_point center radius
                 (Capsule.start_angle arc + Capsule.angle arc) = p_end).
  { unfold arc. rewrite get_arc_path_fields. simpl.
    destruct (ccw_sweep_end center p_start p_end) as [k Hk].
    destruct (decide _).
    - rewrite Hk, circle_point_turns. now apply circle_point_angle_of.
    - replace (Capsule.angle_of center p_start
               + (Capsule.ccw_sweep center p_start p_end - Capsule.TAU))
        with (Capsule.angle_of center p_end + Capsule.TAU * IZR (k - 1))
        by (rewrite minus_IZR; lra).
      rewrite circle_point_turns. now apply circle_point_angle_of. }
  assert (Hn : (1 <= Capsule.num_components arc)%nat) by (simpl; lia).
  assert (Hhead : head pts = Some p_start).
  { unfold pts. rewrite head_arc_points. f_equal. exact Hs. }
  assert (Hlast : last pts = Some p_end).
  { unfold pts. rewrite last_arc_points by exact Hn. f_equal. exact He. }
  assert (Hlen : length pts = 61%nat) by apply (length_arc_points arc).
  split; [now split|]. split; [now split|]. split.
  - intros eps Heps. exists p_start, p_end.
    rewrite !dist_self. auto.
  - split; [apply head_snap | apply last_snap]; lia.
Qed.

Lemma arc_runs_from_start_to_end_witness :
  head (Capsule.arc_points
          (Capsule.get_arc_path (mkpoint (-2) 0 0) 3
             (mkpoint 0 (sqrt 5) 0) (mkpoint 0 (- sqrt 5) 0)
             (mkpoint (-1) 0 0)))
  = Some (mkpoint 0 (sqrt 5) 0)
  /\ last (Capsule.arc_points
             (Capsule.get_arc_path (mkpoint (-2) 0 0) 3
                (mkpoint 0 (sqrt 5) 0) (mkpoint 0 (- sqrt 5) 0)
                (mkpoint (-1) 0 0)))
  = Some (mkpoint 0 (- sqrt 5) 0).
Proof.
  assert (H5 : sqrt 5 ^ 2 = 5).
  { rewrite <- Rsqr_pow2. apply Rsqr_sqrt. lra. }
  assert (H1 : Capsule.on_circle (mkpoint (-2) 0 0) 3 (mkpoint 0 (sqrt 5) 0)).
  { split; [reflexivity|]. apply norm_of_square; [lra|]. simpl in *. lra. }
  assert (H2 : Capsule.on_circle (mkpoint (-2) 0 0) 3
                 (mkpoint 0 (- sqrt 5) 0)).
  { split; [reflexivity|]. apply norm_of_square; [lra|]. simpl in *. lra. }
  pose proof (arc_runs_from_start_to_end _ _ _ _ (mkpoint (-1) 0 0) H1 H2)
    as Hthm.
  cbv zeta in *. exact (proj1 (proj2 Hthm)).
Defined.

(** ** The closed outline *)

Section Outline.
Context {A : Type}.
Implicit Types (segments : list (list A)) (junctions : list A).


End Outline.






(** ** Orientation of the triangle of centers *)

Lemma signed_area_three (a b c : point) :
  Triangle.signed_area [a; b; c]
  = Some (0 + (px a * py b - px b * py a)
            + (px b * py c - px c * py b)
            + (px c * py a - px a * py c)).
Proof. reflexivity. Qed.



(** ** The capsule scene itself *)

Lemma scene_cc_d : Triangle.cc_d Capsule.scene_c1 Capsule.scene_c2 = 4.
Proof.
  unfold Triangle.cc_d. apply norm_of_square; [lra | simpl; ring].
Qed.

Lemma scene_cc_h_sq :
  Triangle.cc_h_sq Capsule.scene_c1 Capsule.scene_r1
                   Capsule.scene_c2 Capsule.scene_r2 = 5.
Proof.
  unfold Triangle.cc_h_sq, Triangle.cc_a. rewrite scene_cc_d.
  unfold Capsule.scene_r1, Capsule.scene_r2. field.
Qed.

Lemma scene_intersection_points :
  Capsule.intersection_points Capsule.scene_c1 Capsule.scene_r1
                              Capsule.scene_c2 Capsule.scene_r2
  = Returns (Some (mkpoint 0 (sqrt 5) 0, mkpoint 0 (- sqrt 5) 0)).
Proof.
  rewrite intersection_points_guarded;
    [| rewrite scene_cc_d; lra | rewrite scene_cc_h_sq; lra].
  cbv zeta. rewrite scene_cc_h_sq. unfold Triangle.cc_a.
  rewrite scene_cc_d. unfold Capsule.scene_r1, Capsule.scene_r2.
  do 3 f_equal; apply point_eq; simpl; field.
Qed.

Lemma scene_outward_A :
  Capsule.safe_normalize (vneg (Capsule.scene_c2 -v Capsule.scene_c1))
  = Returns (mkpoint (-1) 0 0).
Proof.
  unfold Capsule.safe_normalize. cbv zeta.
  assert (Hn : norm (vneg (Capsule.scene_c2 -v Capsule.scene_c1)) = 4)
    by (apply norm_of_square; [lra | simpl; ring]).
  rewrite Hn, decide_True, vdiv_ok by lra.
  f_equal. apply point_eq; simpl; field.
Qed.

Lemma scene_outward_B :
  Capsule.safe_normalize (Capsule.scene_c2 -v Capsule.scene_c1)
  = Returns (mkpoint 1 0 0).
Proof.
  unfold Capsule.safe_normalize. cbv zeta.
  assert (Hn : norm (Capsule.scene_c2 -v Capsule.scene_c1) = 4)
    by (apply norm_of_square; [lra | simpl; ring]).
  rewrite Hn, decide_True, vdiv_ok by lra.
  f_equal. apply point_eq; simpl; field.
Qed.

(** The scene draws the outline of the two snapped arcs between
    (0, sqrt 5, 0) and (0, - sqrt 5, 0). *)
Lemma scene_construct :
  Capsule.construct Capsule.scene_c1 Capsule.scene_r1
                    Capsule.scene_c2 Capsule.scene_r2
  = Returns (Some (Capsule.capsule_points
      (Capsule.arc_points
         (Capsule.get_arc_path Capsule.scene_c1 Capsule.scene_r1
            (mkpoint 0 (sqrt 5) 0) (mkpoint 0 (- sqrt 5) 0)
            (mkpoint (-1) 0 0)))
      (Capsule.arc_points
         (Capsule.get_arc_path Capsule.scene_c2 Capsule.scene_r2
            (mkpoint 0 (- sqrt 5) 0) (mkpoint 0 (sqrt 5) 0)
            (mkpoint 1 0 0)))
      (mkpoint 0 (sqrt 5) 0) (mkpoint 0 (- sqrt 5) 0))).
Proof.
  unfold Capsule.construct. rewrite scene_intersection_points.
  run_outcome.
  rewrite scene_outward_A. run_outcome.
  rewrite scene_outward_B. reflexivity.
Qed.

(** * Further properties of the two scenes *)

(** ** More on [circle_circle_intersections] *)

Lemma cc_d_swap (c1 c2 : point) : Triangle.cc_d c2 c1 = Triangle.cc_d c1 c2.
Proof. rewrite !cc_d_dist. apply dist_sym. Qed.

Lemma cc_a_swap (c1 : point) (r1 : R) (c2 : point) (r2 : R) :
  0 < Triangle.cc_d c1 c2 ->
  Triangle.cc_a c2 r2 c1 r1 = Triangle.cc_d c1 c2 - Triangle.cc_a c1 r1 c2 r2.
Proof.
  intros Hd. unfold Triangle.cc_a. rewrite (cc_d_swap c1 c2). field. lra.
Qed.

Lemma cc_h_sq_swap (c1 : point) (r1 : R) (c2 : point) (r2 : R) :
  0 < Triangle.cc_d c1 c2 ->
  Triangle.cc_h_sq c2 r2 c1 r1 = Triangle.cc_h_sq c1 r1 c2 r2.
Proof.
  intros Hd. unfold Triangle.cc_h_sq. rewrite cc_a_swap by assumption.
  unfold Triangle.cc_a. field. lra.
Qed.

Lemma cc_p0_swap (c1 : point) (r1 : R) (c2 : point) (r2 : R) :
  0 < Triangle.cc_d c1 c2 ->
  Triangle.cc_p0 c2 r2 c1 r1 = Triangle.cc_p0 c1 r1 c2 r2.
Proof.
  intros Hd. unfold Triangle.cc_p0. cbv zeta.
  rewrite cc_a_swap by assumption. rewrite (cc_d_swap c1 c2).
  apply point_eq; simpl; field; lra.
Qed.

Lemma cc_perp_swap (c1 c2 : point) :
  0 < Triangle.cc_d c1 c2 ->
  Triangle.cc_perp c2 c1 = vneg (Triangle.cc_perp c1 c2).
Proof.
  intros Hd. unfold Triangle.cc_perp. cbv zeta. rewrite (cc_d_swap c1 c2).
  apply point_eq; simpl; field; lra.
Qed.

(** Past the guards with a centre distance of zero (possible only when
    [eps <= 0]) the first division is by zero. *)
Lemma cci_zero_distance (c1 : point) (r1 : R) (c2 : point) (r2 eps : R) :
  Triangle.cc_d c1 c2 = 0 ->
  eps <= 0 ->
  Rabs (r1 - r2) - eps <= 0 <= r1 + r2 + eps ->
  Triangle.circle_circle_intersections c1 r1 c2 r2 eps = FloatingPointError.
Proof.
  intros Hd Heps [Hlo Hhi]. unfold Triangle.circle_circle_intersections.
  fold (Triangle.cc_d c1 c2). rewrite Hd.
  rewrite decide_False by lra.
  rewrite (bool_decide_eq_false_2 (0 > r1 + r2 + eps)) by lra.
  rewrite (bool_decide_eq_false_2 (0 < Rabs (r1 - r2) - eps)) by lra.
  cbn [orb]. unfold fdiv. rewrite decide_True by lra. reflexivity.
Qed.

(** X1.  Swapping the two circles returns the same points in the opposite
    order. *)
Theorem swapped_circles_reverse_the_points
    (c1 : point) (r1 : R) (c2 : point) (r2 eps : R) (pts : list point) :
  Triangle.circle_circle_intersections c1 r1 c2 r2 eps = Returns pts ->
  Triangle.circle_circle_intersections c2 r2 c1 r1 eps
    = Returns (reverse pts).
Proof.
  intros Hpts.
  destruct (Rlt_dec (Triangle.cc_d c1 c2) eps) as [Hnear | Hnear].
  { rewrite cci_coincident in Hpts by assumption. injection Hpts as <-.
    apply cci_coincident. now rewrite (cc_d_swap c1 c2). }
  destruct (Rlt_dec (r1 + r2 + eps) (Triangle.cc_d c1 c2)) as [Hfar | Hfar].
  { rewrite cci_apart in Hpts by (left; lra). injection Hpts as <-.
    apply cci_apart. left. rewrite (cc_d_swap c1 c2). lra. }
  destruct (Rlt_dec (Triangle.cc_d c1 c2) (Rabs (r1 - r2) - eps))
    as [Hin | Hin].
  { rewrite cci_apart in Hpts by (now right). injection Hpts as <-.
    apply cci_apart. right. rewrite (cc_d_swap c1 c2), (Rabs_minus_sym r2 r1). lra. }
  pose proof (norm_nonneg (c2 -v c1)) as Hnn. fold (Triangle.cc_d c1 c2) in Hnn.
  destruct (Req_dec_T (Triangle.cc_d c1 c2) 0) as [Hz | Hnz].
  { rewrite cci_zero_distance in Hpts by lra. discriminate. }
  assert (Hpos : 0 < Triangle.cc_d c1 c2) by lra.
  rewrite cci_guarded in Hpts by lra.
  rewrite cci_guarded
    by (rewrite ?(cc_d_swap c1 c2), ?(Rabs_minus_sym r2 r1); lra).
  cbv zeta in *. rewrite cc_h_sq_swap, cc_p0_swap, cc_perp_swap by assumption.
  repeat match type of Hpts with
         | context [decide ?P] => destruct (decide P)
         end; injection Hpts as <-; try reflexivity.
  all: change (reverse [?x; ?y]) with [y; x].
  all: do 2 f_equal; [| f_equal]; apply point_eq; simpl; ring.
Qed.

Lemma swapped_circles_reverse_the_points_witness :
  Triangle.circle_circle_intersections
    (mkpoint 2 0 0) 3 (mkpoint (-2) 0 0) 3 Triangle.default_eps
  = Returns [mkpoint 0 (- sqrt 5) 0; mkpoint 0 (sqrt 5) 0].
Proof.
  apply (swapped_circles_reverse_the_points
           (mkpoint (-2) 0 0) 3 (mkpoint 2 0 0) 3 Triangle.default_eps
           [mkpoint 0 (sqrt 5) 0; mkpoint 0 (- sqrt 5) 0]).
  assert (Hd : Triangle.cc_d (mkpoint (-2) 0 0) (mkpoint 2 0 0) = 4).
  { unfold Triangle.cc_d. apply norm_of_square; [lra | simpl; ring]. }
  assert (Ha : Triangle.cc_a (mkpoint (-2) 0 0) 3 (mkpoint 2 0 0) 3 = 2).
  { unfold Triangle.cc_a. rewrite Hd. field. }
  assert (Hh : Triangle.cc_h_sq (mkpoint (-2) 0 0) 3 (mkpoint 2 0 0) 3 = 5).
  { unfold Triangle.cc_h_sq. rewrite Ha. ring. }
  unfold Triangle.default_eps.
  rewrite cci_guarded;
    [| rewrite Hd; lra | rewrite Hd; lra
     | rewrite Hd, Rminus_diag, Rabs_R0; lra ].
  cbv zeta. rewrite Hh.
  rewrite (decide_False (P := Rabs 5 < _)) by (rewrite Rabs_right; lra).
  rewrite (decide_False (P := 5 < 0)) by lra.
  rewrite (decide_False (P := sqrt 5 = 0)) by sqrt_nonzero.
  unfold Triangle.cc_p0, Triangle.cc_perp. rewrite Ha, Hd.
  do 3 f_equal; apply point_eq; simpl; field.
Defined.

(** A common point of the two circles, in coordinates along and across
    the line of centers. *)
Section CommonPoint.
Import Triangle.
Variables (c1 c2 q : point) (r1 r2 : R).
Hypothesis Hc1 : planar c1.
Hypothesis Hc2 : planar c2.
Hypothesis Hq : planar q.
Hypothesis Hd : 0 < cc_d c1 c2.
Hypothesis Hq1 : dist q c1 = r1.
Hypothesis Hq2 : dist q c2 = r2.

Lemma common_point_squares :
(px q - px c1) ^ 2 + (py q - py c1) ^ 2 = r1 ^ 2
/\ (px q - px c2) ^ 2 + (py q - py c2) ^ 2 = r2 ^ 2.
Proof.
unfold planar in *. split.
- rewrite <- Hq1. unfold dist. rewrite norm_sqr. simpl.
  rewrite Hq, Hc1. ring.
- rewrite <- Hq2. unfold dist. rewrite norm_sqr. simpl.
  rewrite Hq, Hc2. ring.
Qed.

Lemma common_point_along :
(px q - px c1) * (px c2 - px c1) + (py q - py c1) * (py c2 - py c1)
= cc_a c1 r1 c2 r2 * cc_d c1 c2.
Proof.
destruct common_point_squares as [H1 H2].
pose proof (cc_d_sqr c1 c2 Hc1 Hc2) as Hdd.
unfold cc_a. field_simplify; [|lra]. rewrite Hdd. nra.
Qed.

Lemma common_point_across :
(- (px q - px c1) * (py c2 - py c1) + (py q - py c1) * (px c2 - px c1)) ^ 2
= cc_h_sq c1 r1 c2 r2 * cc_d c1 c2 ^ 2.
Proof.
destruct common_point_squares as [H1 H2].
pose proof (cc_d_sqr c1 c2 Hc1 Hc2) as Hdd.
pose proof common_point_along as Ha.
unfold cc_h_sq.
set (a := cc_a c1 r1 c2 r2) in *. set (d := cc_d c1 c2) in *.
set (ux := px q - px c1) in *. set (uy := py q - py c1) in *.
set (vx := px c2 - px c1) in *. set (vy := py c2 - py c1) in *.
assert (Hlag : (ux * vx + uy * vy) ^ 2 + (- ux * vy + uy * vx) ^ 2
               = (ux ^ 2 + uy ^ 2) * (vx ^ 2 + vy ^ 2)) by ring.
rewrite Ha, H1, <- Hdd in Hlag. nra.
Qed.

Lemma common_point_h_sq_nonneg : 0 <= cc_h_sq c1 r1 c2 r2.
Proof.
pose proof common_point_across as Hx.
assert (0 < cc_d c1 c2 ^ 2) by nra.
pose proof (pow2_ge_0
  (- (px q - px c1) * (py c2 - py c1) + (py q - py c1) * (px c2 - px c1))).
destruct (Rle_lt_dec 0 (cc_h_sq c1 r1 c2 r2)); [assumption|]. nra.
Qed.

Lemma common_point_is_crossing :
q = cc_p0 c1 r1 c2 r2 +v sqrt (cc_h_sq c1 r1 c2 r2) *v cc_perp c1 c2
\/ q = cc_p0 c1 r1 c2 r2 -v sqrt (cc_h_sq c1 r1 c2 r2) *v cc_perp c1 c2.
Proof.
pose proof common_point_along as Ha.
pose proof common_point_across as Hx.
pose proof common_point_h_sq_nonneg as Hh.
pose proof (cc_d_sqr c1 c2 Hc1 Hc2) as Hdd.
set (h := sqrt (cc_h_sq c1 r1 c2 r2)).
assert (Hhh : h ^ 2 = cc_h_sq c1 r1 c2 r2).
{ unfold h. rewrite <- Rsqr_pow2. now apply Rsqr_sqrt. }
rewrite <- Hhh in Hx.
set (a := cc_a c1 r1 c2 r2) in *. set (d := cc_d c1 c2) in *.
set (ux := px q - px c1) in *. set (uy := py q - py c1) in *.
set (vx := px c2 - px c1) in *. set (vy := py c2 - py c1) in *.
set (b := - ux * vy + uy * vx) in *.
assert (Hb : b = h * d \/ b = - (h * d)).
{ assert (Hz : (b - h * d) * (b + h * d) = 0) by nra.
  apply Rmult_integral in Hz. destruct Hz; [left | right]; lra. }
assert (Hux : ux * d ^ 2 = (ux * vx + uy * vy) * vx - b * vy)
  by (rewrite Hdd; unfold b; ring).
assert (Huy : uy * d ^ 2 = (ux * vx + uy * vy) * vy + b * vx)
  by (rewrite Hdd; unfold b; ring).
rewrite Ha in Hux, Huy. unfold planar in *.
destruct Hb as [Hb | Hb]; [left | right]; rewrite Hb in Hux, Huy.
- apply point_eq; unfold cc_p0, cc_perp; cbn; fold a d vx vy h.
  + apply (Rmult_eq_reg_r (d ^ 2)); [|nra].
    replace (px q) with (px c1 + ux) by (unfold ux; ring).
    rewrite Rmult_plus_distr_r, Hux. field. lra.
  + apply (Rmult_eq_reg_r (d ^ 2)); [|nra].
    replace (py q) with (py c1 + uy) by (unfold uy; ring).
    rewrite Rmult_plus_distr_r, Huy. field. lra.
  + rewrite Hq, Hc1, Hc2. field. lra.
- apply point_eq; unfold cc_p0, cc_perp; cbn; fold a d vx vy h.
  + apply (Rmult_eq_reg_r (d ^ 2)); [|nra].
    replace (px q) with (px c1 + ux) by (unfold ux; ring).
    rewrite Rmult_plus_distr_r, Hux. field. lra.
  + apply (Rmult_eq_reg_r (d ^ 2)); [|nra].
    replace (py q) with (py c1 + uy) by (unfold uy; ring).
    rewrite Rmult_plus_distr_r, Huy. field. lra.
  + rewrite Hq, Hc1, Hc2. field. lra.
Qed.

(** The triangle inequalities between the centers and a common point. *)
Lemma common_point_band :
Rabs (r1 - r2) <= cc_d c1 c2 <= r1 + r2.
Proof.
pose proof common_point_h_sq_nonneg as Hh.
pose proof (cc_a_d c1 c2 r1 r2 Hd) as Had.
assert (Hr1 : 0 <= r1) by (rewrite <- Hq1; apply norm_nonneg).
assert (Hr2 : 0 <= r2) by (rewrite <- Hq2; apply norm_nonneg).
unfold cc_h_sq in Hh.
set (a := cc_a c1 r1 c2 r2) in *. set (d := cc_d c1 c2) in *.
assert (H2 : (d - a) ^ 2 <= r2 ^ 2) by nra.
assert (Ha1 : a <= r1) by nra.
assert (Ha2 : - a <= r1) by nra.
assert (Ha3 : d - a <= r2) by nra.
assert (Ha4 : a - d <= r2) by nra.
split; [|lra].
unfold Rabs. destruct (Rcase_abs (r1 - r2)); nra.
Qed.

End CommonPoint.

(** X2.  When two points are returned, they are all the common points: every
    point of the plane that lies on both circles is one of them. *)
Theorem every_common_point_is_returned
    (c1 : point) (r1 : R) (c2 : point) (r2 eps : R) (q : point) :
  0 < eps -> planar c1 -> planar c2 -> planar q ->
  eps <= dist c1 c2 ->
  eps <= Triangle.cc_h_sq c1 r1 c2 r2 ->
  dist q c1 = r1 -> dist q c2 = r2 ->
  exists p1 p2,
    Triangle.circle_circle_intersections c1 r1 c2 r2 eps = Returns [p1; p2]
    /\ (q = p1 \/ q = p2).
Proof.
  intros Heps Hc1 Hc2 Hq Hd Hh Hq1 Hq2. rewrite <- cc_d_dist in Hd.
  assert (Hpos : 0 < Triangle.cc_d c1 c2) by lra.
  pose proof (common_point_band c1 c2 q r1 r2 Hc1 Hc2 Hq Hpos Hq1 Hq2)
    as Hband.
  rewrite cci_guarded by lra. cbv zeta.
  rewrite (decide_False (P := Rabs _ < eps)) by (rewrite Rabs_right; lra).
  rewrite (decide_False (P := _ < 0)) by lra.
  rewrite (decide_False (P := sqrt _ = 0)) by sqrt_nonzero.
  do 2 eexists. split; [reflexivity|].
  exact (common_point_is_crossing c1 c2 q r1 r2 Hc1 Hc2 Hq Hpos Hq1 Hq2).
Qed.

Lemma every_common_point_is_returned_witness :
  exists p1 p2,
    Triangle.circle_circle_intersections
      (mkpoint 0 0 0) 5 (mkpoint 6 0 0) 5 Triangle.default_eps
    = Returns [p1; p2]
    /\ (mkpoint 3 4 0 = p1 \/ mkpoint 3 4 0 = p2).
Proof.
  assert (Hd : dist (mkpoint 0 0 0) (mkpoint 6 0 0) = 6).
  { rewrite dist_sym. apply norm_of_square; [lra | simpl; ring]. }
  assert (Hh : Triangle.cc_h_sq (mkpoint 0 0 0) 5 (mkpoint 6 0 0) 5 = 16).
  { unfold Triangle.cc_h_sq, Triangle.cc_a. rewrite cc_d_dist, Hd. field. }
  apply every_common_point_is_returned; unfold Triangle.default_eps.
  - lra.
  - reflexivity.
  - reflexivity.
  - reflexivity.
  - rewrite Hd. lra.
  - rewrite Hh. lra.
  - apply norm_of_square; [lra | simpl; ring].
  - apply norm_of_square; [lra | simpl; ring].
Defined.

(** X3.  No false negative.  If the circles have a common point in the
    plane and their centers are at least [eps] apart, the result is not
    empty. *)
Theorem common_point_gives_nonempty_result
    (c1 : point) (r1 : R) (c2 : point) (r2 eps : R) (q : point) :
  0 < eps -> planar c1 -> planar c2 -> planar q ->
  eps <= dist c1 c2 ->
  dist q c1 = r1 -> dist q c2 = r2 ->
  exists p pts,
    Triangle.circle_circle_intersections c1 r1 c2 r2 eps
    = Returns (p :: pts).
Proof.
  intros Heps Hc1 Hc2 Hq Hd Hq1 Hq2. rewrite <- cc_d_dist in Hd.
  assert (Hpos : 0 < Triangle.cc_d c1 c2) by lra.
  pose proof (common_point_band c1 c2 q r1 r2 Hc1 Hc2 Hq Hpos Hq1 Hq2)
    as Hband.
  pose proof (common_point_h_sq_nonneg c1 c2 q r1 r2 Hc1 Hc2 Hq Hpos Hq1 Hq2)
    as Hh.
  rewrite cci_guarded by lra. cbv zeta.
  destruct (decide (Rabs _ < eps)).
  - rewrite (decide_False (P := 0 < 0)) by lra.
    rewrite (decide_True (P := sqrt 0 = 0)) by apply sqrt_0.
    now do 2 eexists.
  - rewrite (decide_False (P := _ < 0)) by lra.
    destruct (decide (sqrt _ = 0)); now do 2 eexists.
Qed.

Lemma common_point_gives_nonempty_result_witness :
  exists p pts,
    Triangle.circle_circle_intersections
      (mkpoint 0 0 0) 5 (mkpoint 6 0 0) 5 Triangle.default_eps
    = Returns (p :: pts).
Proof.
  apply (common_point_gives_nonempty_result
           (mkpoint 0 0 0) 5 (mkpoint 6 0 0) 5 Triangle.default_eps
           (mkpoint 3 4 0)); unfold Triangle.default_eps.
  - lra.
  - reflexivity.
  - reflexivity.
  - reflexivity.
  - replace (dist _ _) with 6; [lra|]. symmetry. rewrite dist_sym.
    apply norm_of_square; [lra | simpl; ring].
  - apply norm_of_square; [lra | simpl; ring].
  - apply norm_of_square; [lra | simpl; ring].
Defined.

(** X4.  Tangent circles.  When the center distance is exactly the sum or
    the difference of the radii, the result is the single point [p0], and
    it lies on both circles. *)
Theorem tangent_circles_touch_in_one_point
    (c1 : point) (r1 : R) (c2 : point) (r2 eps : R) :
  0 < eps -> planar c1 -> planar c2 -> 0 <= r1 -> 0 <= r2 ->
  eps <= dist c1 c2 ->
  dist c1 c2 = r1 + r2 \/ dist c1 c2 = Rabs (r1 - r2) ->
  Triangle.circle_circle_intersections c1 r1 c2 r2 eps
    = Returns [Triangle.cc_p0 c1 r1 c2 r2]
  /\ dist (Triangle.cc_p0 c1 r1 c2 r2) c1 = r1
  /\ dist (Triangle.cc_p0 c1 r1 c2 r2) c2 = r2.
Proof.
  intros Heps Hc1 Hc2 Hr1 Hr2 Hd Htan. rewrite <- cc_d_dist in Hd, Htan.
  assert (Hpos : 0 < Triangle.cc_d c1 c2) by lra.
  assert (Hh : Triangle.cc_h_sq c1 r1 c2 r2 = 0).
  { pose proof (cc_h_sq_factored c1 r1 c2 r2 Hpos) as Hf.
    assert (Hz : 4 * Triangle.cc_d c1 c2 ^ 2 * Triangle.cc_h_sq c1 r1 c2 r2
                 = 0).
    { rewrite Hf. destruct Htan as [-> | ->]; [ring|].
      unfold Rabs. destruct (Rcase_abs (r1 - r2)); ring. }
    apply Rmult_integral in Hz. destruct Hz as [Hz | Hz]; [nra | exact Hz]. }
  assert (Hband : Rabs (r1 - r2) - eps <= Triangle.cc_d c1 c2
                  <= r1 + r2 + eps).
  { pose proof (Rabs_pos (r1 - r2)).
    assert (Rabs (r1 - r2) <= r1 + r2)
      by (unfold Rabs; destruct (Rcase_abs (r1 - r2)); lra).
    destruct Htan as [-> | ->]; lra. }
  split.
  - rewrite cci_guarded by lra. cbv zeta. rewrite Hh.
    rewrite (decide_True (P := Rabs 0 < eps)) by (rewrite Rabs_R0; lra).
    rewrite (decide_False (P := 0 < 0)) by lra.
    now rewrite (decide_True (P := sqrt 0 = 0)) by apply sqrt_0.
  - pose proof (crossing_on_first c1 c2 r1 r2 Hc1 Hc2 Hpos Hr1
                  ltac:(lra) 1 ltac:(now left)) as H1.
    pose proof (crossing_on_second c1 c2 r1 r2 Hc1 Hc2 Hpos Hr2
                  ltac:(lra) 1 ltac:(now left)) as H2.
    rewrite Hh, sqrt_0 in H1, H2.
    assert (Hp : Triangle.cc_p0 c1 r1 c2 r2
                 +v 1 * 0 *v Triangle.cc_perp c1 c2
                 = Triangle.cc_p0 c1 r1 c2 r2)
      by (apply point_eq; simpl; ring).
    rewrite Hp in H1, H2. now split.
Qed.

Lemma tangent_circles_touch_in_one_point_witness :
  Triangle.circle_circle_intersections
    (mkpoint 0 0 0) 1 (mkpoint 3 0 0) 2 Triangle.default_eps
  = Returns [Triangle.cc_p0 (mkpoint 0 0 0) 1 (mkpoint 3 0 0) 2]
  /\ dist (Triangle.cc_p0 (mkpoint 0 0 0) 1 (mkpoint 3 0 0) 2)
          (mkpoint 0 0 0) = 1
  /\ dist (Triangle.cc_p0 (mkpoint 0 0 0) 1 (mkpoint 3 0 0) 2)
          (mkpoint 3 0 0) = 2.
Proof.
  assert (Hd : dist (mkpoint 0 0 0) (mkpoint 3 0 0) = 3).
  { rewrite dist_sym. apply norm_of_square; [lra | simpl; ring]. }
  apply tangent_circles_touch_in_one_point; unfold Triangle.default_eps.
  - lra.
  - reflexivity.
  - reflexivity.
  - lra.
  - lra.
  - rewrite Hd. lra.
  - left. rewrite Hd. ring.
Defined.

(** X5.  How many points are returned.  Write "inside" for a pair that
    passes both distance guards.  Two points come back exactly when the
    pair is inside and [h_sq >= eps], one exactly when it is inside and
    [|h_sq| < eps], none otherwise. *)
Theorem number_of_returned_points
    (c1 : point) (r1 : R) (c2 : point) (r2 eps : R) :
  0 < eps ->
  let d := dist c1 c2 in
  let h_sq := Triangle.cc_h_sq c1 r1 c2 r2 in
  let inside := eps <= d /\ Rabs (r1 - r2) - eps <= d <= r1 + r2 + eps in
  exists pts,
    Triangle.circle_circle_intersections c1 r1 c2 r2 eps = Returns pts
    /\ (length pts = 2%nat <-> inside /\ eps <= h_sq)
    /\ (length pts = 1%nat <-> inside /\ Rabs h_sq < eps)
    /\ (length pts = 0%nat <-> ~ inside \/ h_sq <= - eps).
Proof.
  intros Heps d h_sq inside. unfold inside, d, h_sq. clear inside d h_sq.
  rewrite <- cc_d_dist.
  set (d := Triangle.cc_d c1 c2). set (h := Triangle.cc_h_sq c1 r1 c2 r2).
  destruct (Rlt_dec d eps) as [Hnear | Hnear].
  { exists []. split; [now apply cci_coincident|]. simpl.
    repeat split; intros; try lia; try lra. }
  destruct (Rlt_dec (r1 + r2 + eps) d) as [Hfar | Hfar].
  { exists []. split; [apply cci_apart; left; fold d; lra|]. simpl.
    repeat split; intros; try lia; try lra. }
  destruct (Rlt_dec d (Rabs (r1 - r2) - eps)) as [Hin | Hin].
  { exists []. split; [apply cci_apart; now right|]. simpl.
    repeat split; intros; try lia; try lra. }
  rewrite cci_guarded by (fold d; lra). cbv zeta. fold h.
  destruct (decide (Rabs h < eps)) as [Hclamp | Hclamp].
  - rewrite (decide_False (P := 0 < 0)) by lra.
    rewrite (decide_True (P := sqrt 0 = 0)) by apply sqrt_0.
    eexists. split; [reflexivity|]. simpl.
    assert (- eps < h < eps) by (apply Rabs_def2 in Hclamp; lra).
    repeat split; intros; try lia; try lra.
  - assert (Hcases : h <= - eps \/ eps <= h).
    { unfold Rabs in Hclamp. destruct (Rcase_abs h); lra. }
    destruct (decide (h < 0)) as [Hneg | Hnn].
    + exists []. split; [reflexivity|]. simpl.
      repeat split; intros; try lia; try lra.
    + rewrite (decide_False (P := sqrt h = 0)) by sqrt_nonzero.
      eexists. split; [reflexivity|]. simpl.
      repeat split; intros; try lia; try lra.
Qed.

Lemma number_of_returned_points_witness :
  exists pts,
    Triangle.circle_circle_intersections
      (mkpoint 0 0 0) 5 (mkpoint 6 0 0) 5 Triangle.default_eps = Returns pts
    /\ length pts = 2%nat.
Proof.
  assert (Heps : 0 < Triangle.default_eps)
    by (unfold Triangle.default_eps; lra).
  destruct (number_of_returned_points
              (mkpoint 0 0 0) 5 (mkpoint 6 0 0) 5 Triangle.default_eps Heps)
    as (pts & Hpts & Htwo & _).
  exists pts. split; [exact Hpts|]. apply Htwo.
  assert (Hd : dist (mkpoint 0 0 0) (mkpoint 6 0 0) = 6).
  { rewrite dist_sym. apply norm_of_square; [lra | simpl; ring]. }
  assert (Hh : Triangle.cc_h_sq (mkpoint 0 0 0) 5 (mkpoint 6 0 0) 5 = 16).
  { unfold Triangle.cc_h_sq, Triangle.cc_a. rewrite cc_d_dist, Hd. field. }
  rewrite Hd, Hh, Rminus_diag, Rabs_R0. unfold Triangle.default_eps. lra.
Defined.

(** Reading a two-point result backwards. *)
Lemma cci_two_points_inv
    (c1 : point) (r1 : R) (c2 : point) (r2 eps : R) (p1 p2 : point) :
  Triangle.circle_circle_intersections c1 r1 c2 r2 eps = Returns [p1; p2] ->
  0 < Triangle.cc_d c1 c2
  /\ 0 < sqrt (Triangle.cc_h_sq c1 r1 c2 r2)
  /\ p1 = Triangle.cc_p0 c1 r1 c2 r2
          +v sqrt (Triangle.cc_h_sq c1 r1 c2 r2) *v Triangle.cc_perp c1 c2
  /\ p2 = Triangle.cc_p0 c1 r1 c2 r2
          -v sqrt (Triangle.cc_h_sq c1 r1 c2 r2) *v Triangle.cc_perp c1 c2.
Proof.
  intros Hpts.
  destruct (Rlt_dec (Triangle.cc_d c1 c2) eps) as [Hnear | Hnear].
  { rewrite cci_coincident in Hpts by assumption. discriminate. }
  destruct (Rlt_dec (r1 + r2 + eps) (Triangle.cc_d c1 c2)) as [Hfar | Hfar].
  { rewrite cci_apart in Hpts by (left; lra). discriminate. }
  destruct (Rlt_dec (Triangle.cc_d c1 c2) (Rabs (r1 - r2) - eps))
    as [Hin | Hin].
  { rewrite cci_apart in Hpts by (now right). discriminate. }
  pose proof (norm_nonneg (c2 -v c1)) as Hnn.
  fold (Triangle.cc_d c1 c2) in Hnn.
  destruct (Req_dec_T (Triangle.cc_d c1 c2) 0) as [Hz | Hnz].
  { rewrite cci_zero_distance in Hpts by lra. discriminate. }
  assert (Hpos : 0 < Triangle.cc_d c1 c2) by lra.
  rewrite cci_guarded in Hpts by lra. cbv zeta in Hpts.
  destruct (decide (Rabs _ < eps)).
  { rewrite (decide_False (P := 0 < 0)) in Hpts by lra.
    rewrite (decide_True (P := sqrt 0 = 0)) in Hpts by apply sqrt_0.
    discriminate. }
  destruct (decide (_ < 0)); [discriminate|].
  destruct (decide (sqrt _ = 0)) as [|Hroot]; [discriminate|].
  injection Hpts as <- <-.
  pose proof (sqrt_pos (Triangle.cc_h_sq c1 r1 c2 r2)).
  repeat split; try reflexivity; lra.
Qed.

(** X6.  The two returned points are mirror images in the line of centers:
    they differ, the chord between them is perpendicular to that line, and
    its midpoint is the point [p0] of that line. *)
Theorem returned_points_are_mirror_images
    (c1 : point) (r1 : R) (c2 : point) (r2 eps : R) (p1 p2 : point) :
  planar c1 -> planar c2 ->
  Triangle.circle_circle_intersections c1 r1 c2 r2 eps = Returns [p1; p2] ->
  p1 <> p2
  /\ dot (p1 -v p2) (c2 -v c1) = 0
  /\ (1 / 2) *v (p1 +v p2)
     = c1 +v (Triangle.cc_a c1 r1 c2 r2 / Triangle.cc_d c1 c2) *v (c2 -v c1).
Proof.
  intros Hc1 Hc2 Hpts.
  destruct (cci_two_points_inv _ _ _ _ _ _ _ Hpts) as (Hd & Hh & -> & ->).
  pose proof (cc_d_sqr c1 c2 Hc1 Hc2) as Hdd.
  set (h := sqrt (Triangle.cc_h_sq c1 r1 c2 r2)) in *.
  set (d := Triangle.cc_d c1 c2) in *.
  repeat split.
  - intros Heq.
    assert (Hx : px (Triangle.cc_p0 c1 r1 c2 r2 +v h *v Triangle.cc_perp c1 c2)
                 = px (Triangle.cc_p0 c1 r1 c2 r2
                       -v h *v Triangle.cc_perp c1 c2)) by now rewrite Heq.
    assert (Hy : py (Triangle.cc_p0 c1 r1 c2 r2 +v h *v Triangle.cc_perp c1 c2)
                 = py (Triangle.cc_p0 c1 r1 c2 r2
                       -v h *v Triangle.cc_perp c1 c2)) by now rewrite Heq.
    unfold Triangle.cc_perp in Hx, Hy. cbn in Hx, Hy. fold d in Hx, Hy.
    assert (Hvy : py c2 - py c1 = 0).
    { assert (Hm : h * ((py c2 - py c1) / d) = 0) by lra.
      apply Rmult_integral in Hm. destruct Hm as [Hm | Hm]; [lra|].
      apply (Rmult_eq_compat_r d) in Hm. field_simplify in Hm; lra. }
    assert (Hvx : px c2 - px c1 = 0).
    { assert (Hm : h * ((px c2 - px c1) / d) = 0) by lra.
      apply Rmult_integral in Hm. destruct Hm as [Hm | Hm]; [lra|].
      apply (Rmult_eq_compat_r d) in Hm. field_simplify in Hm; lra. }
    rewrite Hvx, Hvy in Hdd. nra.
  - unfold dot, Triangle.cc_perp. cbn. fold d. field. lra.
  - unfold Triangle.cc_p0, Triangle.cc_perp. cbv zeta. fold d.
    apply point_eq; cbn; field; lra.
Qed.

Lemma returned_points_are_mirror_images_witness :
  mkpoint 0 (sqrt 5) 0 <> mkpoint 0 (- sqrt 5) 0
  /\ dot (mkpoint 0 (sqrt 5) 0 -v mkpoint 0 (- sqrt 5) 0)
         (mkpoint 2 0 0 -v mkpoint (-2) 0 0) = 0.
Proof.
  destruct (returned_points_are_mirror_images
              (mkpoint (-2) 0 0) 3 (mkpoint 2 0 0) 3 Triangle.default_eps
              (mkpoint 0 (sqrt 5) 0) (mkpoint 0 (- sqrt 5) 0))
    as (Hne & Hdot & _).
  - reflexivity.
  - reflexivity.
  - assert (Hd : Triangle.cc_d (mkpoint (-2) 0 0) (mkpoint 2 0 0) = 4).
    { unfold Triangle.cc_d. apply norm_of_square; [lra | simpl; ring]. }
    assert (Ha : Triangle.cc_a (mkpoint (-2) 0 0) 3 (mkpoint 2 0 0) 3 = 2).
    { unfold Triangle.cc_a. rewrite Hd. field. }
    assert (Hh : Triangle.cc_h_sq (mkpoint (-2) 0 0) 3 (mkpoint 2 0 0) 3 = 5).
    { unfold Triangle.cc_h_sq. rewrite Ha. ring. }
    unfold Triangle.default_eps.
    rewrite cci_guarded;
      [| rewrite Hd; lra | rewrite Hd; lra
       | rewrite Hd, Rminus_diag, Rabs_R0; lra ].
    cbv zeta. rewrite Hh.
    rewrite (decide_False (P := Rabs 5 < _)) by (rewrite Rabs_right; lra).
    rewrite (decide_False (P := 5 < 0)) by lra.
    rewrite (decide_False (P := sqrt 5 = 0)) by sqrt_nonzero.
    unfold Triangle.cc_p0, Triangle.cc_perp. rewrite Ha, Hd.
    do 3 f_equal; apply point_eq; simpl; field.
  - now split.
Defined.

(** X7.  The coincident-center guard needs a positive tolerance.  With
    [eps = 0] two identical circles pass both guards and the first
    division is by zero. *)
Theorem zero_tolerance_divides_by_zero (c : point) (r : R) :
  0 <= r ->
  Triangle.circle_circle_intersections c r c r 0 = FloatingPointError.
Proof.
  intros Hr. apply cci_zero_distance.
  - rewrite cc_d_dist. apply dist_self.
  - lra.
  - rewrite Rminus_diag, Rabs_R0. lra.
Qed.

Lemma zero_tolerance_divides_by_zero_witness :
  Triangle.circle_circle_intersections (mkpoint 1 2 0) 3 (mkpoint 1 2 0) 3 0
  = FloatingPointError.
Proof. apply zero_tolerance_divides_by_zero. lra. Defined.

(** ** More on the inline computation of the capsule scene *)

(** For centers in the plane the inline points are [p0 + h * perp] and
    [p0 - h * perp]. *)
Lemma intersection_points_crossing
    (c1 : point) (r1 : R) (c2 : point) (r2 : R) :
  planar c1 -> planar c2 ->
  0 < Triangle.cc_d c1 c2 ->
  0 <= Triangle.cc_h_sq c1 r1 c2 r2 ->
  Capsule.intersection_points c1 r1 c2 r2
  = Returns (Some
      (Triangle.cc_p0 c1 r1 c2 r2
       +v sqrt (Triangle.cc_h_sq c1 r1 c2 r2) *v Triangle.cc_perp c1 c2,
       Triangle.cc_p0 c1 r1 c2 r2
       -v sqrt (Triangle.cc_h_sq c1 r1 c2 r2) *v Triangle.cc_perp c1 c2)).
Proof.
  intros Hc1 Hc2 Hd Hh.
  rewrite intersection_points_guarded by assumption. cbv zeta.
  unfold Triangle.cc_p0, Triangle.cc_perp, planar in *.
  do 3 f_equal; apply point_eq; simpl; rewrite ?Hc1, ?Hc2; field; lra.
Qed.

Lemma intersection_points_outcome
    (c1 : point) (r1 : R) (c2 : point) (r2 : R) :
  exists res,
    Capsule.intersection_points c1 r1 c2 r2 = Returns res
    /\ (res = None <->
        Triangle.cc_d c1 c2 = 0
        \/ Triangle.cc_h_sq c1 r1 c2 r2 <= - (1 / 100000000)).
Proof.
  unfold Capsule.intersection_points. fold (Triangle.cc_d c1 c2).
  destruct (decide (Triangle.cc_d c1 c2 = 0)) as [Hz | Hnz].
  { exists None. split; [reflexivity|]. split; [now left | reflexivity]. }
  rewrite fdiv_ok by lra. run_outcome.
  fold (Triangle.cc_a c1 r1 c2 r2). fold (Triangle.cc_h_sq c1 r1 c2 r2).
  set (h := Triangle.cc_h_sq c1 r1 c2 r2).
  destruct (Rlt_dec h 0) as [Hneg | Hnn].
  - rewrite (bool_decide_eq_true_2 (h < 0)) by assumption. cbn [andb].
    destruct (Rlt_dec (- (1 / 100000000)) h) as [Htiny | Hbig].
    + rewrite (bool_decide_eq_true_2 (h > - (1 / 100000000))) by lra.
      rewrite (decide_False (P := 0 < 0)) by lra.
      rewrite fsqrt_ok by lra. run_outcome. rewrite !fdiv_ok by assumption.
      run_outcome. eexists. split; [reflexivity|].
      split; [discriminate | intros [? | ?]; [contradiction | lra]].
    + rewrite (bool_decide_eq_false_2 (h > - (1 / 100000000))) by lra.
      rewrite decide_True by assumption.
      exists None. split; [reflexivity|]. split; [right; lra | reflexivity].
  - rewrite (bool_decide_eq_false_2 (h < 0)) by assumption. cbn [andb].
    rewrite decide_False by assumption.
    rewrite fsqrt_ok by lra. run_outcome. rewrite !fdiv_ok by assumption.
    run_outcome. eexists. split; [reflexivity|].
    split; [discriminate | intros [? | ?]; [contradiction | lra]].
Qed.

(** X8.  The inline computation never divides by zero and never takes the
    root of a negative number, whatever the circles; it gives up exactly
    when the centers coincide or [h_sq <= -1e-8]. *)
Theorem inline_computation_bails_out_exactly
    (c1 : point) (r1 : R) (c2 : point) (r2 : R) :
  exists res,
    Capsule.intersection_points c1 r1 c2 r2 = Returns res
    /\ (res = None <->
        Triangle.cc_d c1 c2 = 0
        \/ Triangle.cc_h_sq c1 r1 c2 r2 <= - (1 / 100000000)).
Proof. apply intersection_points_outcome. Qed.

(** X9.  A tiny negative [h_sq] (above -1e-8) or a zero [h_sq] gives the
    same point twice: the inline computation reports tangent circles as a
    pair of equal points, not as one point. *)
Theorem inline_tangent_returns_one_point_twice
    (c1 : point) (r1 : R) (c2 : point) (r2 : R) :
  Triangle.cc_d c1 c2 <> 0 ->
  - (1 / 100000000) < Triangle.cc_h_sq c1 r1 c2 r2 <= 0 ->
  exists p,
    Capsule.intersection_points c1 r1 c2 r2 = Returns (Some (p, p))
    /\ px p = px c1 + Triangle.cc_a c1 r1 c2 r2 * (px c2 - px c1)
                      / Triangle.cc_d c1 c2
    /\ py p = py c1 + Triangle.cc_a c1 r1 c2 r2 * (py c2 - py c1)
                      / Triangle.cc_d c1 c2
    /\ pz p = 0.
Proof.
  intros Hnz [Hlo Hhi].
  unfold Capsule.intersection_points. fold (Triangle.cc_d c1 c2).
  rewrite decide_False by assumption.
  rewrite fdiv_ok by lra. run_outcome.
  fold (Triangle.cc_a c1 r1 c2 r2). fold (Triangle.cc_h_sq c1 r1 c2 r2).
  set (h := Triangle.cc_h_sq c1 r1 c2 r2) in *.
  assert (Hroot : sqrt (if bool_decide (h < 0)
                           && bool_decide (h > - (1 / 100000000))
                        then 0 else h) = 0).
  { destruct (Rlt_dec h 0).
    - rewrite (bool_decide_eq_true_2 (h < 0)) by assumption.
      rewrite (bool_decide_eq_true_2 (h > - (1 / 100000000))) by lra.
      apply sqrt_0.
    - rewrite (bool_decide_eq_false_2 (h < 0)) by assumption.
      replace h with 0 by lra. apply sqrt_0. }
  assert (Hnn : ~ (if bool_decide (h < 0)
                      && bool_decide (h > - (1 / 100000000))
                   then 0 else h) < 0).
  { destruct (bool_decide (h < 0)) eqn:E1;
      destruct (bool_decide (h > - (1 / 100000000))) eqn:E2; cbn [andb];
      try lra.
    - apply bool_decide_eq_false_1 in E2. lra.
    - apply bool_decide_eq_false_1 in E1. lra.
    - apply bool_decide_eq_false_1 in E1. lra. }
  rewrite decide_False by exact Hnn.
  rewrite fsqrt_ok by lra. run_outcome. rewrite Hroot.
  rewrite !fdiv_ok by assumption. run_outcome.
  eexists. split.
  - do 3 f_equal; apply point_eq; simpl; field; assumption.
  - simpl. repeat split; field; assumption.
Qed.

Lemma inline_tangent_returns_one_point_twice_witness :
  exists p,
    Capsule.intersection_points (mkpoint 0 0 0) 1 (mkpoint 3 0 0) 2
    = Returns (Some (p, p)).
Proof.
  assert (Hd : Triangle.cc_d (mkpoint 0 0 0) (mkpoint 3 0 0) = 3).
  { unfold Triangle.cc_d. apply norm_of_square; [lra | simpl; ring]. }
  assert (Hh : Triangle.cc_h_sq (mkpoint 0 0 0) 1 (mkpoint 3 0 0) 2 = 0).
  { unfold Triangle.cc_h_sq, Triangle.cc_a. rewrite Hd. field. }
  destruct (inline_tangent_returns_one_point_twice
              (mkpoint 0 0 0) 1 (mkpoint 3 0 0) 2) as (p & Hp & _).
  - rewrite Hd. lra.
  - rewrite Hh. lra.
  - now exists p.
Defined.

(** X10.  For circles of the plane with a non-negative [h_sq], the two
    inline points lie exactly on both circles, and they are two different
    points as soon as [h_sq] is positive, however small. *)
Theorem inline_points_on_both_circles
    (c1 : point) (r1 : R) (c2 : point) (r2 : R) :
  planar c1 -> planar c2 -> 0 <= r1 -> 0 <= r2 ->
  0 < dist c1 c2 ->
  0 <= Triangle.cc_h_sq c1 r1 c2 r2 ->
  exists p1 p2,
    Capsule.intersection_points c1 r1 c2 r2 = Returns (Some (p1, p2))
    /\ (dist p1 c1 = r1 /\ dist p1 c2 = r2)
    /\ (dist p2 c1 = r1 /\ dist p2 c2 = r2)
    /\ (0 < Triangle.cc_h_sq c1 r1 c2 r2 -> p1 <> p2).
Proof.
  intros Hc1 Hc2 Hr1 Hr2 Hd Hh. rewrite <- cc_d_dist in Hd.
  rewrite intersection_points_crossing by assumption.
  do 2 eexists. split; [reflexivity|].
  pose proof (crossing_on_first c1 c2 r1 r2 Hc1 Hc2 Hd Hr1 Hh) as H1.
  pose proof (crossing_on_second c1 c2 r1 r2 Hc1 Hc2 Hd Hr2 Hh) as H2.
  split; [|split].
  - rewrite vadd_as_vadd. split; [apply H1 | apply H2]; now left.
  - rewrite vsub_as_vadd. split; [apply H1 | apply H2]; now right.
  - intros Hpos Heq.
    pose proof (cc_d_sqr c1 c2 Hc1 Hc2) as Hdd.
    assert (Hroot : 0 < sqrt (Triangle.cc_h_sq c1 r1 c2 r2))
      by now apply sqrt_lt_R0.
    set (h := sqrt (Triangle.cc_h_sq c1 r1 c2 r2)) in *.
    set (d := Triangle.cc_d c1 c2) in *.
    assert (Hx : px (Triangle.cc_p0 c1 r1 c2 r2 +v h *v Triangle.cc_perp c1 c2)
                 = px (Triangle.cc_p0 c1 r1 c2 r2
                       -v h *v Triangle.cc_perp c1 c2)) by now rewrite Heq.
    assert (Hy : py (Triangle.cc_p0 c1 r1 c2 r2 +v h *v Triangle.cc_perp c1 c2)
                 = py (Triangle.cc_p0 c1 r1 c2 r2
                       -v h *v Triangle.cc_perp c1 c2)) by now rewrite Heq.
    unfold Triangle.cc_perp in Hx, Hy. cbn in Hx, Hy. fold d in Hx, Hy.
    assert (Hvy : py c2 - py c1 = 0).
    { assert (Hm : h * ((py c2 - py c1) / d) = 0) by lra.
      apply Rmult_integral in Hm. destruct Hm as [Hm | Hm]; [lra|].
      apply (Rmult_eq_compat_r d) in Hm. field_simplify in Hm; lra. }
    assert (Hvx : px c2 - px c1 = 0).
    { assert (Hm : h * ((px c2 - px c1) / d) = 0) by lra.
      apply Rmult_integral in Hm. destruct Hm as [Hm | Hm]; [lra|].
      apply (Rmult_eq_compat_r d) in Hm. field_simplify in Hm; lra. }
    rewrite Hvx, Hvy in Hdd. nra.
Qed.

Lemma inline_points_on_both_circles_witness :
  exists p1 p2,
    Capsule.intersection_points Capsule.scene_c1 Capsule.scene_r1
                                Capsule.scene_c2 Capsule.scene_r2
    = Returns (Some (p1, p2))
    /\ (dist p1 Capsule.scene_c1 = Capsule.scene_r1
        /\ dist p1 Capsule.scene_c2 = Capsule.scene_r2)
    /\ (dist p2 Capsule.scene_c1 = Capsule.scene_r1
        /\ dist p2 Capsule.scene_c2 = Capsule.scene_r2)
    /\ p1 <> p2.
Proof.
  destruct (inline_points_on_both_circles
              Capsule.scene_c1 Capsule.scene_r1
              Capsule.scene_c2 Capsule.scene_r2)
    as (p1 & p2 & Hp & H1 & H2 & Hne).
  - reflexivity.
  - reflexivity.
  - unfold Capsule.scene_r1. lra.
  - unfold Capsule.scene_r2. lra.
  - rewrite <- cc_d_dist, scene_cc_d. lra.
  - rewrite scene_cc_h_sq. lra.
  - exists p1, p2. repeat split; try tauto.
    apply Hne. rewrite scene_cc_h_sq. lra.
Defined.

(** ** [safe_normalize] *)

Lemma norm_vdiv (u : point) :
  norm u <> 0 ->
  norm (mkpoint (px u / norm u) (py u / norm u) (pz u / norm u)) = 1.
Proof.
  intros Hn. apply norm_of_square; [lra|]. cbn.
  pose proof (norm_sqr u) as Hs.
  transitivity ((px u ^ 2 + py u ^ 2 + pz u ^ 2) / norm u ^ 2).
  - field. assumption.
  - rewrite <- Hs. field. assumption.
Qed.

(** X11.  [safe_normalize] always returns; a vector of non-zero length comes
    back scaled to length 1, the zero vector comes back unchanged. *)
Theorem safe_normalize_unit_or_zero (u : point) :
  exists w,
    Capsule.safe_normalize u = Returns w
    /\ (norm u <> 0 -> norm w = 1 /\ u = norm u *v w)
    /\ (norm u = 0 -> w = u).
Proof.
  unfold Capsule.safe_normalize. cbv zeta.
  destruct (decide (norm u <> 0)) as [Hn | Hz].
  - rewrite vdiv_ok by assumption. eexists. split; [reflexivity|].
    split; [|contradiction]. intros _. split.
    + now apply norm_vdiv.
    + apply point_eq; simpl; field; assumption.
  - exists u. split; [reflexivity|]. split; [contradiction | reflexivity].
Qed.

(** ** More on [norm_pos] and [get_arc_path] *)

(** X12.  [norm_pos] brings every angle into [0, TAU) without changing the
    direction it stands for, leaves the angles of [0, TAU) alone, and the
    correction [a += TAU] after the remainder is never taken. *)
Theorem norm_pos_normalizes (a : R) :
  0 <= Capsule.norm_pos a < Capsule.TAU
  /\ cos (Capsule.norm_pos a) = cos a
  /\ sin (Capsule.norm_pos a) = sin a
  /\ Capsule.norm_pos (Capsule.norm_pos a) = Capsule.norm_pos a
  /\ Capsule.norm_pos a = Capsule.float_mod a Capsule.TAU
  /\ exists k : Z, Capsule.norm_pos a = a + Capsule.TAU * IZR k.
Proof.
  pose proof (norm_pos_range a) as Hr.
  split; [exact Hr|]. split; [apply cos_norm_pos|].
  split; [apply sin_norm_pos|]. split; [now apply norm_pos_id|].
  split.
  - rewrite norm_pos_floor. reflexivity.
  - exists (- Zfloor (a / Capsule.TAU))%Z.
    rewrite norm_pos_floor, opp_IZR. ring.
Qed.

Lemma dot_vneg_r (u w : point) : dot u (vneg w) = - dot u w.
Proof. unfold dot, vneg. simpl. ring. Qed.

(** X13.  The sign of the returned sweep tells which arc was chosen.  The
    start angle lies in [0, TAU); the sweep lies in [0, TAU) when the
    counter-clockwise midpoint faces outward and in [-TAU, 0) when it does
    not. *)
Theorem arc_angles_in_range
    (center : point) (radius : R) (p_start p_end outward_vec : point) :
  let arc := Capsule.get_arc_path center radius p_start p_end outward_vec in
  let dot_ccw :=
    dot (Capsule.mid_pt_ccw center radius p_start p_end -v center)
        outward_vec in
  0 <= Capsule.start_angle arc < Capsule.TAU
  /\ - Capsule.TAU <= Capsule.angle arc < Capsule.TAU
  /\ (0 <= Capsule.angle arc <-> dot_ccw > 0)
  /\ (Capsule.angle arc < 0 <-> dot_ccw <= 0).
Proof.
  intros arc dot_ccw. unfold arc. rewrite get_arc_path_fields.
  cbn [Capsule.start_angle Capsule.angle]. fold dot_ccw.
  pose proof (ccw_sweep_range center p_start p_end) as Hs.
  pose proof TAU_pos as Ht.
  split; [apply norm_pos_range|].
  destruct (decide (dot_ccw > 0)); repeat split; intros; lra.
Qed.

(** X14.  Turning the outward vector round selects the other arc.  Unless
    the counter-clockwise midpoint is exactly perpendicular to the outward
    vector, the sweeps for [outward_vec] and for its opposite differ by a
    full turn; in the perpendicular case both calls return the clockwise
    arc. *)
Theorem opposite_outward_gives_complementary_arc
    (center : point) (radius : R) (p_start p_end outward_vec : point) :
  let arc := Capsule.get_arc_path center radius p_start p_end outward_vec in
  let arc' :=
    Capsule.get_arc_path center radius p_start p_end (vneg outward_vec) in
  let dot_ccw :=
    dot (Capsule.mid_pt_ccw center radius p_start p_end -v center)
        outward_vec in
  Capsule.start_angle arc' = Capsule.start_angle arc
  /\ (dot_ccw > 0 -> Capsule.angle arc' = Capsule.angle arc - Capsule.TAU)
  /\ (dot_ccw < 0 -> Capsule.angle arc' = Capsule.angle arc + Capsule.TAU)
  /\ (dot_ccw = 0 -> Capsule.angle arc' = Capsule.angle arc).
Proof.
  intros arc arc' dot_ccw. unfold arc, arc'. rewrite !get_arc_path_fields.
  cbn [Capsule.start_angle Capsule.angle]. rewrite dot_vneg_r. fold dot_ccw.
  split; [reflexivity|].
  destruct (decide (dot_ccw > 0)); destruct (decide (- dot_ccw > 0));
    repeat split; intros; lra.
Qed.

Lemma opposite_outward_gives_complementary_arc_witness :
  Capsule.angle (Capsule.get_arc_path (mkpoint 0 0 0) 1 (mkpoint 1 0 0)
                   (mkpoint (-1) 0 0) (vneg (mkpoint 1 0 0)))
  = Capsule.angle (Capsule.get_arc_path (mkpoint 0 0 0) 1 (mkpoint 1 0 0)
                     (mkpoint (-1) 0 0) (mkpoint 1 0 0)).
Proof.
  apply (opposite_outward_gives_complementary_arc
           (mkpoint 0 0 0) 1 (mkpoint 1 0 0) (mkpoint (-1) 0 0)
           (mkpoint 1 0 0)).
  assert (Hs : Capsule.angle_of (mkpoint 0 0 0) (mkpoint 1 0 0) = 0).
  { unfold Capsule.angle_of, Capsule.arctan2. simpl.
    rewrite decide_True by lra.
    replace (_ / _) with 0 by (field; lra).
    rewrite atan_0. apply norm_pos_id. pose proof TAU_pos. lra. }
  assert (He : Capsule.angle_of (mkpoint 0 0 0) (mkpoint (-1) 0 0) = PI).
  { unfold Capsule.angle_of, Capsule.arctan2. simpl.
    rewrite decide_False by lra. rewrite decide_True by lra.
    rewrite decide_False by lra.
    replace (_ / _) with 0 by (field; lra).
    rewrite atan_0, Rplus_0_l. apply norm_pos_id.
    unfold Capsule.TAU. pose proof PI_RGT_0. lra. }
  rewrite mid_pt_ccw_circle_point. unfold Capsule.ccw_sweep.
  rewrite Hs, He. cbv zeta.
  rewrite decide_False by (pose proof PI_RGT_0; lra).
  unfold Capsule.circle_point, dot. simpl.
  replace (0 + (PI - 0) / 2) with (PI / 2) by field.
  rewrite cos_PI2. ring.
Defined.

(** X15.  When start and end point coincide, the counter-clockwise sweep is
    zero, so the result is either the empty arc (the point itself faces
    outward) or one full clockwise turn; it is never a counter-clockwise
    turn. *)
Theorem coincident_end_points_give_empty_or_full_arc
    (center : point) (radius : R) (p outward_vec : point) :
  let arc := Capsule.get_arc_path center radius p p outward_vec in
  Capsule.ccw_sweep center p p = 0
  /\ (dot (Capsule.circle_point center radius (Capsule.angle_of center p)
           -v center) outward_vec > 0 ->
      Capsule.angle arc = 0)
  /\ (dot (Capsule.circle_point center radius (Capsule.angle_of center p)
           -v center) outward_vec <= 0 ->
      Capsule.angle arc = - Capsule.TAU).
Proof.
  intros arc.
  assert (Hs : Capsule.ccw_sweep center p p = 0).
  { unfold Capsule.ccw_sweep. cbv zeta. rewrite Rminus_diag.
    now rewrite decide_False by lra. }
  unfold arc. rewrite get_arc_path_fields. cbn [Capsule.angle].
  rewrite mid_pt_ccw_circle_point, Hs.
  replace (Capsule.angle_of center p + 0 / 2)
    with (Capsule.angle_of center p) by field.
  split; [reflexivity|].
  destruct (decide (_ > 0)); split; intros; lra.
Qed.

(** X16.  The same arc, run backwards.  Swapping start and end point with
    the same outward vector negates the sweep, provided the two points
    have different angles and the midpoint is not perpendicular to the
    outward vector; the two counter-clockwise sweeps add up to a turn. *)
Theorem swapped_end_points_reverse_the_arc
    (center : point) (radius : R) (p_start p_end outward_vec : point) :
  Capsule.angle_of center p_start <> Capsule.angle_of center p_end ->
  dot (Capsule.mid_pt_ccw center radius p_start p_end -v center) outward_vec
    <> 0 ->
  let arc := Capsule.get_arc_path center radius p_start p_end outward_vec in
  let back := Capsule.get_arc_path center radius p_end p_start outward_vec in
  Capsule.ccw_sweep center p_start p_end + Capsule.ccw_sweep center p_end p_start
    = Capsule.TAU
  /\ Capsule.angle back = - Capsule.angle arc
  /\ exists k : Z,
       Capsule.start_angle back
       = Capsule.start_angle arc + Capsule.angle arc + Capsule.TAU * IZR k.
Proof.
  intros Hne Hdot arc back.
  pose proof (norm_pos_range
    (Capsule.arctan2 (py (p_start -v center)) (px (p_start -v center))))
    as Hrs.
  pose proof (norm_pos_range
    (Capsule.arctan2 (py (p_end -v center)) (px (p_end -v center))))
    as Hre.
  fold (Capsule.angle_of center p_start) in Hrs.
  fold (Capsule.angle_of center p_end) in Hre.
  assert (Hsum : Capsule.ccw_sweep center p_start p_end
                 + Capsule.ccw_sweep center p_end p_start = Capsule.TAU).
  { unfold Capsule.ccw_sweep. cbv zeta.
    destruct (decide (_ - _ < 0)); destruct (decide (_ - _ < 0)); lra. }
  assert (Hend : exists k : Z,
             Capsule.angle_of center p_end
             = Capsule.angle_of center p_start
               + Capsule.ccw_sweep center p_start p_end + Capsule.TAU * IZR k).
  { destruct (ccw_sweep_end center p_start p_end) as [k Hk].
    exists (- k)%Z. rewrite opp_IZR. lra. }
  destruct Hend as [k Hk].
  assert (Hmid : Capsule.mid_pt_ccw center radius p_end p_start -v center
                 = vneg (Capsule.mid_pt_ccw center radius p_start p_end
                         -v center)).
  { rewrite !mid_pt_ccw_circle_point.
    replace (Capsule.angle_of center p_end
             + Capsule.ccw_sweep center p_end p_start / 2)
      with (Capsule.angle_of center p_start
            + Capsule.ccw_sweep center p_start p_end / 2 + PI
            + Capsule.TAU * IZR k)
      by (rewrite Hk; unfold Capsule.TAU in *; lra).
    rewrite circle_point_turns.
    unfold Capsule.circle_point. apply point_eq; simpl;
      rewrite ?neg_cos, ?neg_sin; ring. }
  split; [exact Hsum|]. unfold arc, back. rewrite !get_arc_path_fields.
  cbn [Capsule.start_angle Capsule.angle]. rewrite Hmid, dot_vneg_l.
  set (dt := dot (Capsule.mid_pt_ccw center radius p_start p_end -v center)
                 outward_vec) in *.
  split.
  - destruct (decide (dt > 0)); destruct (decide (- dt > 0)); lra.
  - destruct (decide (dt > 0)).
    + exists k. lra.
    + exists (k + 1)%Z. rewrite plus_IZR. lra.
Qed.

Lemma swapped_end_points_reverse_the_arc_witness :
  Capsule.angle (Capsule.get_arc_path (mkpoint 0 0 0) 1 (mkpoint (-1) 0 0)
                   (mkpoint 1 0 0) (mkpoint 0 1 0))
  = - Capsule.angle (Capsule.get_arc_path (mkpoint 0 0 0) 1 (mkpoint 1 0 0)
                       (mkpoint (-1) 0 0) (mkpoint 0 1 0)).
Proof.
  assert (Hs : Capsule.angle_of (mkpoint 0 0 0) (mkpoint 1 0 0) = 0).
  { unfold Capsule.angle_of, Capsule.arctan2. simpl.
    rewrite decide_True by lra.
    replace (_ / _) with 0 by (field; lra).
    rewrite atan_0. apply norm_pos_id. pose proof TAU_pos. lra. }
  assert (He : Capsule.angle_of (mkpoint 0 0 0) (mkpoint (-1) 0 0) = PI).
  { unfold Capsule.angle_of, Capsule.arctan2. simpl.
    rewrite decide_False by lra. rewrite decide_True by lra.
    rewrite decide_False by lra.
    replace (_ / _) with 0 by (field; lra).
    rewrite atan_0, Rplus_0_l. apply norm_pos_id.
    unfold Capsule.TAU. pose proof PI_RGT_0. lra. }
  apply (swapped_end_points_reverse_the_arc
           (mkpoint 0 0 0) 1 (mkpoint 1 0 0) (mkpoint (-1) 0 0)
           (mkpoint 0 1 0)).
  - rewrite Hs, He. pose proof PI_RGT_0. lra.
  - rewrite mid_pt_ccw_circle_point. unfold Capsule.ccw_sweep.
    rewrite Hs, He. cbv zeta.
    rewrite decide_False by (pose proof PI_RGT_0; lra).
    unfold Capsule.circle_point, dot. simpl.
    replace (0 + (PI - 0) / 2) with (PI / 2) by field.
    rewrite sin_PI2. lra.
Defined.

(** ** The two arcs of the capsule *)

(** The chord of the counter-clockwise arc, by its mid-angle [m] and its
    half sweep [h]: the end point minus the start point is
    [2 * radius * sin h] times the unit vector at [m] turned by a quarter. *)
Section Chord.
Import Capsule.
Variables (center : point) (radius : R) (p_start p_end : point).
Hypothesis Hstart : on_circle center radius p_start.
Hypothesis Hend : on_circle center radius p_end.

Lemma half_sweep_sin_nonneg :
0 <= sin (ccw_sweep center p_start p_end / 2).
Proof.
pose proof (ccw_sweep_range center p_start p_end) as Hr.
unfold TAU in Hr. apply sin_ge_0; lra.
Qed.

Lemma chord_of_ccw_arc :
let m := angle_of center p_start + ccw_sweep center p_start p_end / 2 in
let h := ccw_sweep center p_start p_end / 2 in
px p_end - px p_start = - (2 * radius * sin m * sin h)
/\ py p_end - py p_start = 2 * radius * cos m * sin h.
Proof.
intros m h.
pose proof (circle_point_angle_of center radius p_start Hstart) as Hs.
pose proof (circle_point_angle_of center radius p_end Hend) as He.
destruct (ccw_sweep_end center p_start p_end) as [k Hk].
rewrite <- (circle_point_turns center radius _ k), <- Hk in He.
replace (angle_of center p_start) with (m - h) in Hs
  by (unfold m, h; ring).
replace (angle_of center p_start + ccw_sweep center p_start p_end)
  with (m + h) in He by (unfold m, h; field).
rewrite <- Hs, <- He. unfold circle_point. cbn.
rewrite cos_plus, cos_minus, sin_plus, sin_minus. split; ring.
Qed.

End Chord.

Section CapsuleArcs.
Import Triangle Capsule.
Variables (c1 c2 : point) (r1 r2 : R).
Hypothesis Hc1 : planar c1.
Hypothesis Hc2 : planar c2.
Hypothesis Hr1 : 0 < r1.
Hypothesis Hr2 : 0 < r2.
Hypothesis Hd : 0 < cc_d c1 c2.
Hypothesis Hh : 0 < cc_h_sq c1 r1 c2 r2.

Lemma crossing_on_circles (s : R) :
s = 1 \/ s = -1 ->
on_circle c1 r1
  (cc_p0 c1 r1 c2 r2 +v (s * sqrt (cc_h_sq c1 r1 c2 r2)) *v cc_perp c1 c2)
/\ on_circle c2 r2
  (cc_p0 c1 r1 c2 r2 +v (s * sqrt (cc_h_sq c1 r1 c2 r2)) *v cc_perp c1 c2).
Proof.
intros Hs. unfold on_circle.
rewrite (crossing_on_first c1 c2 r1 r2 Hc1 Hc2 Hd) by (auto; lra).
rewrite (crossing_on_second c1 c2 r1 r2 Hc1 Hc2 Hd) by (auto; lra).
unfold planar in *.
assert (Hz : pz (cc_p0 c1 r1 c2 r2
                 +v (s * sqrt (cc_h_sq c1 r1 c2 r2)) *v cc_perp c1 c2) = 0).
{ unfold cc_p0, cc_perp. cbn. rewrite Hc1, Hc2. field. lra. }
rewrite Hz, Hc1, Hc2. auto.
Qed.

(** The counter-clockwise arc of a circle between the two crossing points,
    started at the point [p0 + s * h * perp]: its midpoint is the point of
    the circle on the line of centers, on the side given by [- s]. *)
Lemma ccw_midpoint_on_center_line
  (center : point) (radius s : R) (p_start p_end : point) :
0 < radius -> s = 1 \/ s = -1 ->
p_start = cc_p0 c1 r1 c2 r2
          +v (s * sqrt (cc_h_sq c1 r1 c2 r2)) *v cc_perp c1 c2 ->
p_end = cc_p0 c1 r1 c2 r2
        -v (s * sqrt (cc_h_sq c1 r1 c2 r2)) *v cc_perp c1 c2 ->
on_circle center radius p_start -> on_circle center radius p_end ->
0 < ccw_sweep center p_start p_end
/\ mid_pt_ccw center radius p_start p_end
   = center +v (- s * radius / cc_d c1 c2) *v (c2 -v c1).
Proof.
intros Hrad Hs Hps Hpe Hstart Hend.
set (h := sqrt (cc_h_sq c1 r1 c2 r2)) in *.
destruct (chord_of_ccw_arc center radius p_start p_end Hstart Hend)
  as [Hx Hy].
pose proof (half_sweep_sin_nonneg center p_start p_end) as Hsin.
pose proof (ccw_sweep_range center p_start p_end) as Hrange.
pose proof (cc_d_sqr c1 c2 Hc1 Hc2) as Hdd.
assert (Hroot : 0 < h) by now apply sqrt_lt_R0.
assert (Hs2 : s ^ 2 = 1) by (destruct Hs; subst; ring).
rewrite mid_pt_ccw_circle_point.
set (m := angle_of center p_start + ccw_sweep center p_start p_end / 2)
  in *.
set (hs := sin (ccw_sweep center p_start p_end / 2)) in *.
set (d := cc_d c1 c2) in *.
set (vx := px c2 - px c1) in *. set (vy := py c2 - py c1) in *.
assert (Hcx : px p_end - px p_start = 2 * s * h * vy / d).
{ rewrite Hps, Hpe. unfold cc_perp. cbn. fold d vy. field. lra. }
assert (Hcy : py p_end - py p_start = - (2 * s * h * vx / d)).
{ rewrite Hps, Hpe. unfold cc_perp. cbn. fold d vx. field. lra. }
rewrite Hcx in Hx. rewrite Hcy in Hy.
assert (Hsm : radius * hs * sin m = - (s * h * vy / d)) by lra.
assert (Hcm : radius * hs * cos m = - (s * h * vx / d)) by lra.
assert (Hsq : (radius * hs) ^ 2 = h ^ 2).
{ pose proof (sin2_cos2 m) as Hone. unfold Rsqr in Hone.
  assert (Hl : (radius * hs) ^ 2 = (radius * hs * sin m) ^ 2
                                   + (radius * hs * cos m) ^ 2) by nra.
  rewrite Hl, Hsm, Hcm.
  transitivity (s ^ 2 * h ^ 2 * ((vx ^ 2 + vy ^ 2) / d ^ 2)).
  - field. lra.
  - rewrite <- Hdd, Hs2. field. lra. }
assert (Hrh : radius * hs = h).
{ assert (Hnn : 0 <= radius * hs) by (apply Rmult_le_pos; lra).
  assert (Hz : (radius * hs - h) * (radius * hs + h) = 0) by nra.
  apply Rmult_integral in Hz. destruct Hz; lra. }
assert (Hhs : 0 < hs).
{ destruct (Rle_lt_or_eq_dec 0 hs Hsin) as [|Hz]; [assumption|].
  rewrite <- Hz in Hrh. lra. }
split.
- destruct (Rle_lt_or_eq_dec 0 _ (proj1 Hrange)) as [|Hz]; [assumption|].
  exfalso. unfold hs in Hhs. rewrite <- Hz in Hhs.
  replace (0 / 2) with 0 in Hhs by field. rewrite sin_0 in Hhs. lra.
- rewrite Hrh in Hsm, Hcm.
  assert (Hsin' : sin m = - (s * vy / d)).
  { apply (Rmult_eq_reg_l h); [|lra]. rewrite Hsm. field. lra. }
  assert (Hcos' : cos m = - (s * vx / d)).
  { apply (Rmult_eq_reg_l h); [|lra]. rewrite Hcm. field. lra. }
  unfold circle_point, planar in *. apply point_eq; cbn.
  + rewrite Hcos'. fold vx d. field. lra.
  + rewrite Hsin'. fold vy d. field. lra.
  + rewrite Hc1, Hc2. ring.
Qed.

End CapsuleArcs.

Lemma norm_vneg (u : point) : norm (vneg u) = norm u.
Proof. unfold norm. f_equal. simpl. ring. Qed.

(** X17.  The capsule is drawn from the two outer arcs.  For two circles of
    the plane that cross properly, both arcs handed to the outline are
    counter-clockwise (their sweeps lie strictly between 0 and TAU); the
    midpoint of the arc on the first circle is the point of that circle
    farthest from the second center, and the midpoint of the arc on the
    second circle is the point farthest from the first center. *)
Theorem capsule_arcs_are_the_outer_arcs
    (c1 : point) (r1 : R) (c2 : point) (r2 : R) :
  planar c1 -> planar c2 -> 0 < r1 -> 0 < r2 ->
  0 < dist c1 c2 ->
  0 < Triangle.cc_h_sq c1 r1 c2 r2 ->
  exists p1 p2 outward_A outward_B,
    Capsule.intersection_points c1 r1 c2 r2 = Returns (Some (p1, p2))
    /\ Capsule.safe_normalize (vneg (c2 -v c1)) = Returns outward_A
    /\ Capsule.safe_normalize (c2 -v c1) = Returns outward_B
    /\ (0 < Capsule.angle (Capsule.get_arc_path c1 r1 p1 p2 outward_A)
          < Capsule.TAU
        /\ Capsule.arc_midpoint (Capsule.get_arc_path c1 r1 p1 p2 outward_A)
           = c1 -v (r1 / dist c1 c2) *v (c2 -v c1))
    /\ (0 < Capsule.angle (Capsule.get_arc_path c2 r2 p2 p1 outward_B)
          < Capsule.TAU
        /\ Capsule.arc_midpoint (Capsule.get_arc_path c2 r2 p2 p1 outward_B)
           = c2 +v (r2 / dist c1 c2) *v (c2 -v c1)).
Proof.
  intros Hc1 Hc2 Hr1 Hr2 Hd Hh. rewrite <- cc_d_dist in *.
  pose proof (cc_d_sqr c1 c2 Hc1 Hc2) as Hdd.
  set (h := sqrt (Triangle.cc_h_sq c1 r1 c2 r2)).
  set (p1 := Triangle.cc_p0 c1 r1 c2 r2 +v (1 * h) *v Triangle.cc_perp c1 c2).
  set (p2 := Triangle.cc_p0 c1 r1 c2 r2
             +v (-1 * h) *v Triangle.cc_perp c1 c2).
  assert (Hn : norm (c2 -v c1) = Triangle.cc_d c1 c2) by reflexivity.
  exists p1, p2,
    (mkpoint (px (vneg (c2 -v c1)) / Triangle.cc_d c1 c2)
             (py (vneg (c2 -v c1)) / Triangle.cc_d c1 c2)
             (pz (vneg (c2 -v c1)) / Triangle.cc_d c1 c2)),
    (mkpoint (px (c2 -v c1) / Triangle.cc_d c1 c2)
             (py (c2 -v c1) / Triangle.cc_d c1 c2)
             (pz (c2 -v c1) / Triangle.cc_d c1 c2)).
  split.
  { rewrite intersection_points_crossing by (assumption || lra).
    unfold p1, p2, h. now rewrite <- vadd_as_vadd, <- vsub_as_vadd. }
  split.
  { unfold Capsule.safe_normalize. cbv zeta. rewrite norm_vneg, Hn.
    rewrite decide_True by lra. apply vdiv_ok. lra. }
  split.
  { unfold Capsule.safe_normalize. cbv zeta. rewrite Hn.
    rewrite decide_True by lra. apply vdiv_ok. lra. }
  destruct (crossing_on_circles c1 c2 r1 r2 Hc1 Hc2 Hr1 Hr2 Hd Hh 1
              ltac:(now left)) as [H11 H12].
  destruct (crossing_on_circles c1 c2 r1 r2 Hc1 Hc2 Hr1 Hr2 Hd Hh (-1)
              ltac:(now right)) as [H21 H22].
  fold h in H11, H12, H21, H22. fold p1 in H11, H12. fold p2 in H21, H22.
  pose proof (ccw_sweep_range c1 p1 p2) as HrA.
  pose proof (ccw_sweep_range c2 p2 p1) as HrB.
  unfold planar in *.
  split.
  - destruct (ccw_midpoint_on_center_line c1 c2 r1 r2 Hc1 Hc2 Hd Hh
                c1 r1 1 p1 p2) as [Hpos Hmid]; try assumption.
    { now left. }
    { reflexivity. }
    { unfold p2. fold h. apply point_eq; simpl; ring. }
    unfold Capsule.arc_midpoint. rewrite get_arc_path_fields.
    cbn [Capsule.arc_center Capsule.radius Capsule.start_angle Capsule.angle].
    rewrite Hmid. rewrite decide_True.
    + split; [lra|]. rewrite <- mid_pt_ccw_circle_point, Hmid.
      apply point_eq; simpl; field; lra.
    + unfold dot. cbn. rewrite Hc1, Hc2.
      set (d := Triangle.cc_d c1 c2) in *.
      replace (_ + _ + _)
        with (r1 * (((px c2 - px c1) ^ 2 + (py c2 - py c1) ^ 2) / d ^ 2))
        by (field; lra).
      rewrite <- Hdd. replace (d ^ 2 / d ^ 2) with 1 by (field; lra). lra.
  - destruct (ccw_midpoint_on_center_line c1 c2 r1 r2 Hc1 Hc2 Hd Hh
                c2 r2 (-1) p2 p1) as [Hpos Hmid]; try assumption.
    { now right. }
    { reflexivity. }
    { unfold p1. fold h. apply point_eq; simpl; ring. }
    unfold Capsule.arc_midpoint. rewrite get_arc_path_fields.
    cbn [Capsule.arc_center Capsule.radius Capsule.start_angle Capsule.angle].
    rewrite Hmid. rewrite decide_True.
    + split; [lra|]. rewrite <- mid_pt_ccw_circle_point, Hmid.
      apply point_eq; simpl; field; lra.
    + unfold dot. cbn. rewrite Hc1, Hc2.
      set (d := Triangle.cc_d c1 c2) in *.
      replace (_ + _ + _)
        with (r2 * (((px c2 - px c1) ^ 2 + (py c2 - py c1) ^ 2) / d ^ 2))
        by (field; lra).
      rewrite <- Hdd. replace (d ^ 2 / d ^ 2) with 1 by (field; lra). lra.
Qed.

Lemma capsule_arcs_are_the_outer_arcs_witness :
  exists p1 p2 outward_A outward_B,
    Capsule.intersection_points Capsule.scene_c1 Capsule.scene_r1
                                Capsule.scene_c2 Capsule.scene_r2
    = Returns (Some (p1, p2))
    /\ Capsule.safe_normalize (vneg (Capsule.scene_c2 -v Capsule.scene_c1))
       = Returns outward_A
    /\ Capsule.safe_normalize (Capsule.scene_c2 -v Capsule.scene_c1)
       = Returns outward_B
    /\ (0 < Capsule.angle
              (Capsule.get_arc_path Capsule.scene_c1 Capsule.scene_r1
                 p1 p2 outward_A) < Capsule.TAU
        /\ Capsule.arc_midpoint
             (Capsule.get_arc_path Capsule.scene_c1 Capsule.scene_r1
                p1 p2 outward_A)
           = Capsule.scene_c1
             -v (Capsule.scene_r1 / dist Capsule.scene_c1 Capsule.scene_c2)
                *v (Capsule.scene_c2 -v Capsule.scene_c1))
    /\ (0 < Capsule.angle
              (Capsule.get_arc_path Capsule.scene_c2 Capsule.scene_r2
                 p2 p1 outward_B) < Capsule.TAU
        /\ Capsule.arc_midpoint
             (Capsule.get_arc_path Capsule.scene_c2 Capsule.scene_r2
                p2 p1 outward_B)
           = Capsule.scene_c2
             +v (Capsule.scene_r2 / dist Capsule.scene_c1 Capsule.scene_c2)
                *v (Capsule.scene_c2 -v Capsule.scene_c1)).
Proof.
  apply capsule_arcs_are_the_outer_arcs.
  - reflexivity.
  - reflexivity.
  - unfold Capsule.scene_r1. lra.
  - unfold Capsule.scene_r2. lra.
  - rewrite <- cc_d_dist, scene_cc_d. lra.
  - rewrite scene_cc_h_sq. lra.
Defined.

(** ** More on snapping and the outline *)

Section SnapMore.
Context {A : Type}.
Implicit Types (pts : list A) (p q : A).

(** X18.  Snapping keeps the number of points and every interior point; only
    the first and the last position can change. *)
Theorem snap_keeps_interior pts p q (i : nat) :
(0 < i)%nat -> (i < length pts - 1)%nat ->
length (Capsule.snap pts p q) = length pts
/\ Capsule.snap pts p q !! i = pts !! i.
Proof.
intros Hlo Hhi. split; [apply length_snap|].
unfold Capsule.snap. rewrite decide_True by lia. cbv zeta.
rewrite length_insert.
rewrite list_lookup_insert_ne by lia.
now rewrite list_lookup_insert_ne by lia.
Qed.

(** X19.  The edge cases of snapping.  An empty segment stays empty (the
    guard on [shape[0]]); in a segment of one point the first and the last
    position are the same cell, so the value written last, [p_last],
    is the one that stays. *)
Theorem snap_short_segments pts p q :
(length pts <= 1)%nat ->
Capsule.snap pts p q = (fun _ => q) <$> pts.
Proof.
intros Hlen. destruct pts as [|x [|y pts]]; simpl in Hlen; try lia;
  reflexivity.
Qed.


(** X20.  The capsule outline is a closed path through both intersection
    points: it starts at [p1], passes from the first arc to the second at
    [p2] (stored twice, once by each arc) and ends at [p1] again. *)
Theorem capsule_outline_is_closed (pts_A pts_B : list A) (p1 p2 : A) :
(2 <= length pts_A)%nat -> (2 <= length pts_B)%nat ->
let outline := Capsule.capsule_points pts_A pts_B p1 p2 in
length outline = (length pts_A + length pts_B)%nat
/\ head outline = Some p1
/\ outline !! (length pts_A - 1)%nat = Some p2
/\ outline !! length pts_A = Some p2
/\ last outline = Some p1.
Proof.
intros HA HB outline. unfold outline, Capsule.capsule_points.
pose proof (length_snap pts_A p1 p2) as HlA.
pose proof (length_snap pts_B p2 p1) as HlB.
pose proof (head_snap pts_A p1 p2 HA) as HhA.
pose proof (last_snap pts_A p1 p2 ltac:(lia)) as HtA.
pose proof (head_snap pts_B p2 p1 HB) as HhB.
pose proof (last_snap pts_B p2 p1 ltac:(lia)) as HtB.
split; [rewrite length_app; lia|].
split.
{ destruct (Capsule.snap pts_A p1 p2); [discriminate | exact HhA]. }
split.
{ rewrite lookup_app_l by lia.
  rewrite last_lookup, HlA in HtA.
  now replace (length pts_A - 1)%nat with (Init.Nat.pred (length pts_A))
    by lia. }
split.
{ rewrite lookup_app_r by lia. rewrite HlA, Nat.sub_diag.
  now rewrite <- head_lookup. }
rewrite last_app. now rewrite HtB.
Qed.

End SnapMore.

Lemma snap_short_segments_witness :
  Capsule.snap [7%nat] 1%nat 2%nat = [2%nat]
  /\ Capsule.snap (@nil nat) 1%nat 2%nat = [].
Proof.
  split.
  - apply (snap_short_segments [7%nat] 1%nat 2%nat). simpl. lia.
  - apply (snap_short_segments (@nil nat) 1%nat 2%nat). simpl. lia.
Defined.

Lemma snap_keeps_interior_witness :
  length (Capsule.snap [10; 11; 12]%nat 1%nat 2%nat) = 3%nat
  /\ Capsule.snap [10; 11; 12]%nat 1%nat 2%nat !! 1%nat = Some 11%nat.
Proof.
  apply (snap_keeps_interior [10; 11; 12]%nat 1%nat 2%nat 1); simpl; lia.
Defined.

Lemma capsule_outline_is_closed_witness :
  length (Capsule.capsule_points [10; 11; 12]%nat [20; 21]%nat 1%nat 2%nat)
  = 5%nat
  /\ head (Capsule.capsule_points [10; 11; 12]%nat [20; 21]%nat 1%nat 2%nat)
     = Some 1%nat
  /\ Capsule.capsule_points [10; 11; 12]%nat [20; 21]%nat 1%nat 2%nat
       !! 2%nat = Some 2%nat
  /\ Capsule.capsule_points [10; 11; 12]%nat [20; 21]%nat 1%nat 2%nat
       !! 3%nat = Some 2%nat
  /\ last (Capsule.capsule_points [10; 11; 12]%nat [20; 21]%nat 1%nat 2%nat)
     = Some 1%nat.
Proof.
  apply (capsule_outline_is_closed [10; 11; 12]%nat [20; 21]%nat 1%nat 2%nat);
    simpl; lia.
Defined.

Lemma safe_normalize_returns (u : point) :
  exists w, Capsule.safe_normalize u = Returns w.
Proof.
  unfold Capsule.safe_normalize. cbv zeta.
  destruct (decide (norm u <> 0)) as [Hn | Hz].
  - rewrite vdiv_ok by assumption. now eexists.
  - now eexists.
Qed.

Lemma length_arc_points_get_arc_path
    (center : point) (radius : R) (p_start p_end outward_vec : point) :
  length (Capsule.arc_points
            (Capsule.get_arc_path center radius p_start p_end outward_vec))
  = 61%nat.
Proof. apply length_arc_points. Qed.

(** X21.  The whole construction of the capsule never divides by zero and
    never takes the root of a negative number: the distance guard stands
    before the divisions, the sign guard before the root, and
    [safe_normalize] tests the norm.  It gives up exactly when the inline
    intersection does; otherwise the outline it builds starts and ends at
    the first intersection point and passes through the second. *)
Theorem construct_never_fails
    (c1 : point) (r1 : R) (c2 : point) (r2 : R) :
  exists res,
    Capsule.construct c1 r1 c2 r2 = Returns res
    /\ (res = None <->
        Triangle.cc_d c1 c2 = 0
        \/ Triangle.cc_h_sq c1 r1 c2 r2 <= - (1 / 100000000))
    /\ (forall outline, res = Some outline ->
        exists p1 p2,
          Capsule.intersection_points c1 r1 c2 r2 = Returns (Some (p1, p2))
          /\ head outline = Some p1
          /\ last outline = Some p1
          /\ p2 ∈ outline).
Proof.
  destruct (intersection_points_outcome c1 r1 c2 r2) as (pts & Hpts & Hnone).
  unfold Capsule.construct. rewrite Hpts. run_outcome.
  destruct pts as [[p1 p2]|].
  - destruct (safe_normalize_returns (vneg (c2 -v c1))) as [oA HA].
    destruct (safe_normalize_returns (c2 -v c1)) as [oB HB].
    rewrite HA. run_outcome. rewrite HB. run_outcome.
    eexists. split; [reflexivity|]. split.
    + split; [discriminate|]. intros Hbail. apply Hnone in Hbail.
      discriminate.
    + intros outline [= <-]. exists p1, p2. split; [reflexivity|].
      unfold Capsule.capsule_points.
      set (pts_A := Capsule.arc_points (Capsule.get_arc_path c1 r1 p1 p2 oA)).
      set (pts_B := Capsule.arc_points (Capsule.get_arc_path c2 r2 p2 p1 oB)).
      assert (HlA : length pts_A = 61%nat)
        by apply length_arc_points_get_arc_path.
      assert (HlB : length pts_B = 61%nat)
        by apply length_arc_points_get_arc_path.
      pose proof (head_snap pts_A p1 p2 ltac:(lia)) as HhA.
      pose proof (last_snap pts_A p1 p2 ltac:(lia)) as HtA.
      pose proof (last_snap pts_B p2 p1 ltac:(lia)) as HtB.
      split; [|split].
      * destruct (Capsule.snap pts_A p1 p2); [discriminate | exact HhA].
      * rewrite last_app. now rewrite HtB.
      * apply elem_of_app. left. rewrite last_lookup in HtA.
        eapply list_elem_of_lookup_2. exact HtA.
  - exists None. split; [reflexivity|].
    split; [split; [intros _; now apply Hnone | reflexivity]|].
    intros outline Hsome. discriminate.
Qed.

(** ** More on the orientation of the triangle of centers *)

Lemma force_ccw_three (k1 k2 k3 : Triangle.Circle) :
  let area := 0 + (px (Triangle.get_center k1) * py (Triangle.get_center k2)
                   - px (Triangle.get_center k2) * py (Triangle.get_center k1))
                + (px (Triangle.get_center k2) * py (Triangle.get_center k3)
                   - px (Triangle.get_center k3) * py (Triangle.get_center k2))
                + (px (Triangle.get_center k3) * py (Triangle.get_center k1)
                   - px (Triangle.get_center k1) * py (Triangle.get_center k3))
  in
  Triangle.force_ccw [k1; k2; k3]
  = if decide (area < 0)
    then Some (Triangle.mkOrdering [k3; k2; k1]
                 (Triangle.get_center <$> [k3; k2; k1])
                 (Triangle.radius <$> [k3; k2; k1]))
    else Some (Triangle.mkOrdering [k1; k2; k3]
                 (Triangle.get_center <$> [k1; k2; k3])
                 (Triangle.radius <$> [k1; k2; k3])).
Proof. reflexivity. Qed.

(** X22.  Whatever the three circles, after [force_ccw] the three lists are
    still aligned (the i-th center and radius belong to the i-th circle),
    the circles are the given ones in the given or in the reversed order,
    the recomputed signed area is not negative, and a second run changes
    nothing. *)
Theorem force_ccw_keeps_lists_aligned (k1 k2 k3 : Triangle.Circle) :
  exists o,
    Triangle.force_ccw [k1; k2; k3] = Some o
    /\ (Triangle.circles o = [k1; k2; k3]
        \/ Triangle.circles o = [k3; k2; k1])
    /\ Triangle.centers o = Triangle.get_center <$> Triangle.circles o
    /\ Triangle.radii o = Triangle.radius <$> Triangle.circles o
    /\ (exists area, Triangle.signed_area (Triangle.centers o) = Some area
                     /\ 0 <= area)
    /\ Triangle.force_ccw (Triangle.circles o) = Some o.
Proof.
  rewrite force_ccw_three. cbv zeta.
  destruct (decide (_ < 0)) as [Hneg | Hnn].
  - eexists. split; [reflexivity|]. cbn [Triangle.circles Triangle.centers
      Triangle.radii].
    split; [now right|]. split; [reflexivity|]. split; [reflexivity|].
    split.
    + cbn [fmap list_fmap]. rewrite signed_area_three.
      eexists. split; [reflexivity|]. lra.
    + rewrite force_ccw_three. cbv zeta. rewrite decide_False by lra.
      reflexivity.
  - eexists. split; [reflexivity|]. cbn [Triangle.circles Triangle.centers
      Triangle.radii].
    split; [now left|]. split; [reflexivity|]. split; [reflexivity|].
    split.
    + cbn [fmap list_fmap]. rewrite signed_area_three.
      eexists. split; [reflexivity|]. lra.
    + rewrite force_ccw_three. cbv zeta. rewrite decide_False by lra.
      reflexivity.
Qed.

(** X23.  The orientation test does not depend on which center comes first
    or on where the scene sits: a cyclic shift and a common translation
    leave the signed area unchanged, and exchanging two centers negates
    it. *)
Theorem signed_area_symmetries (a b c t : point) :
  exists area,
    Triangle.signed_area [a; b; c] = Some area
    /\ Triangle.signed_area [b; c; a] = Some area
    /\ Triangle.signed_area [a +v t; b +v t; c +v t] = Some area
    /\ Triangle.signed_area [b; a; c] = Some (- area).
Proof.
  eexists. rewrite !signed_area_three.
  split; [reflexivity|].
  repeat split; f_equal; simpl; ring.
Qed.

(** X24.  The shoelace loop reads exactly three centers: a shorter list
    raises IndexError, and centers beyond the third are ignored. *)
Theorem signed_area_reads_three_centers (centers : list point) :
  ((length centers < 3)%nat -> Triangle.signed_area centers = None)
  /\ (forall a b c rest,
        centers = a :: b :: c :: rest ->
        Triangle.signed_area centers = Triangle.signed_area [a; b; c]).
Proof.
  split.
  - intros Hlen. destruct centers as [|a [|b [|c rest]]]; simpl in Hlen;
      try lia; reflexivity.
  - intros a b c rest ->. reflexivity.
Qed.

(** ** The centroid and the outward directions *)

Lemma centroid_three (a b c : point) :
  Triangle.centroid [a; b; c]
  = Some (mkpoint ((0 + px a + px b + px c) / 3)
                  ((0 + py a + py b + py c) / 3)
                  ((0 + pz a + pz b + pz c) / 3)).
Proof. reflexivity. Qed.

Lemma norm_zero_iff (v : point) :
  norm v = 0 <-> px v = 0 /\ py v = 0 /\ pz v = 0.
Proof.
  split.
  - intros Hn. pose proof (norm_sqr v) as Hs. rewrite Hn in Hs.
    pose proof (pow2_ge_0 (px v)). pose proof (pow2_ge_0 (py v)).
    pose proof (pow2_ge_0 (pz v)). repeat split; nra.
  - intros (Hx & Hy & Hz). apply norm_of_square; [lra|].
    rewrite Hx, Hy, Hz. ring.
Qed.

Lemma normalize_ok (v : point) :
  norm v <> 0 ->
  Triangle.normalize v
  = Returns (mkpoint (px v / norm v) (py v / norm v) (pz v / norm v)).
Proof. intros Hn. unfold Triangle.normalize. now apply vdiv_ok. Qed.

Lemma normalize_zero (v : point) :
  norm v = 0 -> Triangle.normalize v = FloatingPointError.
Proof.
  intros Hn. unfold Triangle.normalize, vdiv, fdiv.
  rewrite !decide_True by assumption. reflexivity.
Qed.

Lemma mapM_normalize_zero (l : list point) :
  Exists (fun v => norm v = 0) l ->
  mapM Triangle.normalize l = FloatingPointError.
Proof.
  induction 1 as [v l Hv | v l _ IH]; cbn [mapM].
  - now rewrite normalize_zero.
  - rewrite IH. destruct (Triangle.normalize v); reflexivity.
Qed.

(** X25.  For a genuine triangle (a non-zero shoelace sum) no center sits on
    the centroid, so the three outward directions exist; each has length
    1 and points from the centroid to its center, and the three offsets
    from the centroid add up to zero. *)
Theorem outward_dirs_of_a_triangle (a b c : point) (area : R) :
  Triangle.signed_area [a; b; c] = Some area ->
  area <> 0 ->
  exists g u0 u1 u2,
    Triangle.centroid [a; b; c] = Some g
    /\ Triangle.outward_dirs [a; b; c] g = Some (Returns [u0; u1; u2])
    /\ (norm u0 = 1 /\ norm u1 = 1 /\ norm u2 = 1)
    /\ (a -v g = norm (a -v g) *v u0
        /\ b -v g = norm (b -v g) *v u1
        /\ c -v g = norm (c -v g) *v u2)
    /\ (a -v g) +v (b -v g) +v (c -v g) = mkpoint 0 0 0.
Proof.
  intros Harea Hne. rewrite signed_area_three in Harea.
  injection Harea as Harea.
  set (g := mkpoint ((0 + px a + px b + px c) / 3)
                    ((0 + py a + py b + py c) / 3)
                    ((0 + pz a + pz b + pz c) / 3)).
  assert (Ha : norm (a -v g) <> 0).
  { intros Hn. apply norm_zero_iff in Hn as (Hx & Hy & _).
    simpl in Hx, Hy. apply Hne. rewrite <- Harea.
    assert (px b + px c = 2 * px a) by lra.
    assert (py b + py c = 2 * py a) by lra. nra. }
  assert (Hb : norm (b -v g) <> 0).
  { intros Hn. apply norm_zero_iff in Hn as (Hx & Hy & _).
    simpl in Hx, Hy. apply Hne. rewrite <- Harea.
    assert (px a + px c = 2 * px b) by lra.
    assert (py a + py c = 2 * py b) by lra. nra. }
  assert (Hc : norm (c -v g) <> 0).
  { intros Hn. apply norm_zero_iff in Hn as (Hx & Hy & _).
    simpl in Hx, Hy. apply Hne. rewrite <- Harea.
    assert (px a + px b = 2 * px c) by lra.
    assert (py a + py b = 2 * py c) by lra. nra. }
  exists g. do 3 eexists. split; [apply centroid_three|]. split.
  { unfold Triangle.outward_dirs. cbn [lookup list_lookup mbind option_bind].
    cbn [mapM]. rewrite !normalize_ok by assumption. run_outcome.
    reflexivity. }
  split; [repeat split; now apply norm_vdiv|].
  split.
  - repeat split; apply point_eq; cbn [px py pz vscale]; field; assumption.
  - apply point_eq; simpl; field.
Qed.

Lemma outward_dirs_of_a_triangle_witness :
  exists g u0 u1 u2,
    Triangle.centroid [mkpoint (-2) 0 0; mkpoint 2 0 0; mkpoint 0 3 0]
    = Some g
    /\ Triangle.outward_dirs
         [mkpoint (-2) 0 0; mkpoint 2 0 0; mkpoint 0 3 0] g
       = Some (Returns [u0; u1; u2])
    /\ (norm u0 = 1 /\ norm u1 = 1 /\ norm u2 = 1).
Proof.
  destruct (outward_dirs_of_a_triangle
              (mkpoint (-2) 0 0) (mkpoint 2 0 0) (mkpoint 0 3 0)
              (0 + (-2 * 0 - 2 * 0) + (2 * 3 - 0 * 0) + (0 * 0 - -2 * 3)))
    as (g & u0 & u1 & u2 & Hg & Hd & Hn & _).
  - reflexivity.
  - lra.
  - now exists g, u0, u1, u2.
Defined.

(** X26.  No guard protects the division of line 46.  When one of the three
    centers is the centroid itself (three circles in a row at equal
    spacing, or three circles on one spot) the normalisation divides by
    zero. *)
Theorem outward_dirs_divides_by_zero_on_the_centroid (a b c g : point) :
  Triangle.centroid [a; b; c] = Some g ->
  g = a \/ g = b \/ g = c ->
  Triangle.outward_dirs [a; b; c] g = Some FloatingPointError.
Proof.
  intros _ Hg. unfold Triangle.outward_dirs.
  cbn [lookup list_lookup mbind option_bind]. f_equal.
  apply mapM_normalize_zero.
  assert (Hself : forall p, norm (p -v p) = 0).
  { intros p. apply norm_zero_iff. simpl. repeat split; ring. }
  destruct Hg as [-> | [-> | ->]].
  - apply Exists_cons_hd, Hself.
  - apply Exists_cons_tl, Exists_cons_hd, Hself.
  - apply Exists_cons_tl, Exists_cons_tl, Exists_cons_hd, Hself.
Qed.

Lemma outward_dirs_divides_by_zero_on_the_centroid_witness :
  Triangle.outward_dirs
    [mkpoint (-4) 0 0; mkpoint 0 0 0; mkpoint 4 0 0] (mkpoint 0 0 0)
  = Some FloatingPointError.
Proof.
  apply outward_dirs_divides_by_zero_on_the_centroid.
  - rewrite centroid_three. f_equal. apply point_eq; simpl; field.
  - right. now left.
Defined.

(** ** The dictionary of intersections *)

Section Intersections_dict.
Import Triangle.
Variables (centers : list point) (radii : list R) (n : nat).
Hypothesis Hcenters : length centers = n.
Hypothesis Hradii : length radii = n.

Lemma intersections_step_ok
  (m : gmap (nat * nat) (list point)) (i : nat) :
(i < n)%nat ->
exists pts,
  intersections_step centers radii n (Some (Returns m)) i
  = Some (Returns (<[(i, ((i + 1) mod n)%nat) := pts]> m))
  /\ intersections_entry centers radii n i ((i + 1) mod n)%nat pts.
Proof.
intros Hi.
assert (Hj : ((i + 1) mod n < n)%nat) by (apply Nat.mod_upper_bound; lia).
destruct (lookup_lt_is_Some_2 centers i ltac:(lia)) as [ci Hci].
destruct (lookup_lt_is_Some_2 radii i ltac:(lia)) as [ri Hri].
destruct (lookup_lt_is_Some_2 centers ((i + 1) mod n)%nat ltac:(lia))
  as [cj Hcj].
destruct (lookup_lt_is_Some_2 radii ((i + 1) mod n)%nat ltac:(lia))
  as [rj Hrj].
destruct (cci_returns ci ri cj rj default_eps) as (pts & Hpts & _).
{ unfold default_eps. lra. }
exists pts. split.
- unfold intersections_step. cbn [mbind option_bind]. cbv zeta.
  rewrite Hci, Hri, Hcj, Hrj. cbn [mbind option_bind].
  rewrite Hpts. reflexivity.
- split; [reflexivity|]. now exists ci, ri, cj, rj.
Qed.

Lemma intersections_entry_unique (i j : nat) (pts pts' : list point) :
intersections_entry centers radii n i j pts ->
intersections_entry centers radii n i j pts' -> pts = pts'.
Proof.
unfold intersections_entry.
intros [-> (ci & ri & cj & rj & H1 & H2 & H3 & H4 & H5)]
       [_ (ci' & ri' & cj' & rj' & H1' & H2' & H3' & H4' & H5')].
congruence.
Qed.

Lemma intersections_prefix (k : nat) :
(k <= n)%nat ->
exists m,
  foldl (intersections_step centers radii n) (Some (Returns ∅)) (seq 0 k)
  = Some (Returns m)
  /\ forall i j pts,
       m !! (i, j) = Some pts <-> (i < k)%nat /\ intersections_entry centers radii n i j pts.
Proof.
induction k as [|k IH]; intros Hk.
- exists ∅. split; [reflexivity|]. intros i j pts.
  rewrite lookup_empty. split; [discriminate | intros [? _]; lia].
- destruct IH as (m & Hm & Hchar); [lia|].
  destruct (intersections_step_ok m k ltac:(lia)) as (pts & Hstep & Hent).
  exists (<[(k, ((k + 1) mod n)%nat) := pts]> m). split.
  + rewrite seq_S, foldl_app, Hm. simpl. exact Hstep.
  + intros i j pts'. rewrite lookup_insert_Some. split.
    * intros [[[= <- <-] <-] | [Hne Hlook]].
      { split; [lia | exact Hent]. }
      { apply Hchar in Hlook as [Hlt He]. split; [lia | exact He]. }
    * intros [Hlt He]. destruct (decide (i = k)) as [-> | Hik].
      { left. destruct He as [-> He']. split; [reflexivity|].
        eapply intersections_entry_unique; [exact Hent|]. split; [reflexivity|exact He']. }
      { right. split; [intros [= Hi' _]; now apply Hik|].
        apply Hchar. split; [lia | exact He]. }
Qed.

End Intersections_dict.

(** X27.  With aligned lists the loop over the pairs of consecutive circles
    raises nothing and no call fails; the dictionary it builds has an
    entry exactly for the keys (i, (i+1) mod n) with i < n, each holding
    what [circle_circle_intersections] returns for that pair (no entry is
    overwritten), and no entry holds more than two points. *)
Theorem intersections_has_one_entry_per_pair (o : Triangle.ordering) :
  length (Triangle.centers o) = length (Triangle.circles o) ->
  length (Triangle.radii o) = length (Triangle.circles o) ->
  exists m,
    Triangle.intersections o = Some (Returns m)
    /\ (forall i j pts,
          m !! (i, j) = Some pts <->
          (i < length (Triangle.circles o))%nat
          /\ Triangle.intersections_entry
               (Triangle.centers o) (Triangle.radii o)
               (length (Triangle.circles o)) i j pts)
    /\ (forall i j pts, m !! (i, j) = Some pts -> (length pts <= 2)%nat).
Proof.
  intros Hc Hr.
  destruct (intersections_prefix (Triangle.centers o) (Triangle.radii o)
              (length (Triangle.circles o)) Hc Hr
              (length (Triangle.circles o)) ltac:(lia))
    as (m & Hm & Hchar).
  exists m. split; [exact Hm|]. split; [exact Hchar|].
  intros i j pts Hlook. apply Hchar in Hlook as [_ [_ Hent]].
  destruct Hent as (ci & ri & cj & rj & _ & _ & _ & _ & Hpts).
  destruct (cci_returns ci ri cj rj Triangle.default_eps) as (pts' & Hp & Hl).
  { unfold Triangle.default_eps. lra. }
  congruence.
Qed.

Lemma intersections_has_one_entry_per_pair_witness :
  exists m,
    Triangle.intersections
      (Triangle.mkOrdering
         [Triangle.mkCircle (mkpoint (-2) 0 0) 3;
          Triangle.mkCircle (mkpoint 2 0 0) 3]
         [mkpoint (-2) 0 0; mkpoint 2 0 0] [3; 3])
    = Some (Returns m)
    /\ (exists pts, m !! (0%nat, 1%nat) = Some pts)
    /\ m !! (0%nat, 0%nat) = None.
Proof.
  destruct (intersections_has_one_entry_per_pair
              (Triangle.mkOrdering
                 [Triangle.mkCircle (mkpoint (-2) 0 0) 3;
                  Triangle.mkCircle (mkpoint 2 0 0) 3]
                 [mkpoint (-2) 0 0; mkpoint 2 0 0] [3; 3]))
    as (m & Hm & Hchar & _).
  - reflexivity.
  - reflexivity.
  - exists m. split; [exact Hm|]. split.
    + destruct (cci_returns (mkpoint (-2) 0 0) 3 (mkpoint 2 0 0) 3
                  Triangle.default_eps) as (pts & Hpts & _).
      { unfold Triangle.default_eps. lra. }
      exists pts. apply Hchar. split; [simpl; lia|].
      split; [reflexivity|].
      exists (mkpoint (-2) 0 0), 3, (mkpoint 2 0 0), 3. now repeat split.
    + destruct (m !! (0%nat, 0%nat)) as [pts|] eqn:E; [|reflexivity].
      apply Hchar in E as [_ [Hj _]]. simpl in Hj. discriminate.
Defined.

(** ** Angles and points of a circle *)

Section Angle_round_trip.
Import Capsule.

Lemma angle_unique (a b : R) :
0 <= a < TAU -> 0 <= b < TAU ->
cos a = cos b -> sin a = sin b -> a = b.
Proof.
intros Ha Hb Hc Hs. unfold TAU in *.
set (x := (a - b) / 2).
assert (Hx : - PI < x < PI) by (unfold x; lra).
assert (Hcos : cos (2 * x) = 1).
{ replace (2 * x) with (a - b) by (unfold x; field).
  rewrite cos_minus, Hc, Hs. pose proof (sin2_cos2 b) as H1.
  unfold Rsqr in H1. lra. }
rewrite cos_2a_sin in Hcos.
assert (Hsin : sin x = 0) by nra.
destruct (Rtotal_order x 0) as [Hneg | [Hz | Hpos]].
- pose proof (sin_lt_0_var x ltac:(lra) Hneg). lra.
- unfold x in Hz. lra.
- pose proof (sin_gt_0 x Hpos ltac:(lra)). lra.
Qed.

Lemma turns_in_range (x y : R) (k : Z) :
0 <= x < TAU -> 0 <= y < TAU -> x = y + TAU * IZR k -> x = y.
Proof.
intros Hx Hy Heq. pose proof TAU_pos as Ht.
assert (Hk : (-1 < k < 1)%Z).
{ split; apply lt_IZR; nra. }
assert (k = 0%Z) by lia. subst k. lra.
Qed.

Lemma circle_point_on_circle (center : point) (radius theta : R) :
0 <= radius -> on_circle center radius (circle_point center radius theta).
Proof.
intros Hr. split; [simpl; ring|].
unfold dist. apply norm_of_square; [assumption|].
simpl. pose proof (sin2_cos2 theta) as H1. unfold Rsqr in H1. nra.
Qed.

End Angle_round_trip.

(** X28.  Round trip between angles and points.  Reading the angle of the
    point of the circle at angle [theta] gives [theta] back, normalised
    into [0, TAU); so for two such points the start angle of the arc is
    the normalised start angle and the counter-clockwise sweep is their
    normalised difference. *)
Theorem angle_of_circle_point
    (center : point) (radius theta_s theta_e : R) (outward_vec : point) :
  0 < radius ->
  let p_start := Capsule.circle_point center radius theta_s in
  let p_end := Capsule.circle_point center radius theta_e in
  Capsule.angle_of center p_start = Capsule.norm_pos theta_s
  /\ Capsule.start_angle
       (Capsule.get_arc_path center radius p_start p_end outward_vec)
     = Capsule.norm_pos theta_s
  /\ Capsule.ccw_sweep center p_start p_end
     = Capsule.norm_pos (theta_e - theta_s).
Proof.
  intros Hr p_start p_end.
  assert (Hangle : forall theta,
             Capsule.angle_of center (Capsule.circle_point center radius theta)
             = Capsule.norm_pos theta).
  { intros theta.
    pose proof (circle_point_on_circle center radius theta ltac:(lra)) as Hon.
    pose proof (circle_point_angle_of center radius _ Hon) as Hback.
    assert (Hx : px (Capsule.circle_point center radius
                       (Capsule.angle_of center
                          (Capsule.circle_point center radius theta)))
                 = px (Capsule.circle_point center radius theta))
      by now rewrite Hback.
    assert (Hy : py (Capsule.circle_point center radius
                       (Capsule.angle_of center
                          (Capsule.circle_point center radius theta)))
                 = py (Capsule.circle_point center radius theta))
      by now rewrite Hback.
    set (phi := Capsule.angle_of center
                  (Capsule.circle_point center radius theta)) in *.
    cbn in Hx, Hy.
    apply angle_unique.
    - apply norm_pos_range.
    - apply norm_pos_range.
    - rewrite cos_norm_pos. apply (Rmult_eq_reg_l radius); lra.
    - rewrite sin_norm_pos. apply (Rmult_eq_reg_l radius); lra. }
  split; [apply Hangle|]. split; [apply Hangle|].
  pose proof (ccw_sweep_range center p_start p_end) as Hrange.
  destruct (ccw_sweep_end center p_start p_end) as [k Hk].
  unfold p_start, p_end in *. rewrite !Hangle in Hk.
  rewrite !norm_pos_floor in Hk.
  eapply (turns_in_range _ _
            (k - Zfloor (theta_e / Capsule.TAU)
             + Zfloor (theta_s / Capsule.TAU)
             + Zfloor ((theta_e - theta_s) / Capsule.TAU))).
  - exact Hrange.
  - apply norm_pos_range.
  - rewrite (norm_pos_floor (theta_e - theta_s)).
    rewrite !plus_IZR, !minus_IZR. lra.
Qed.

Lemma angle_of_circle_point_witness :
  Capsule.angle_of (mkpoint 0 0 0)
    (Capsule.circle_point (mkpoint 0 0 0) 2 (PI / 2))
  = Capsule.norm_pos (PI / 2).
Proof.
  apply (angle_of_circle_point (mkpoint 0 0 0) 2 (PI / 2) 0 (mkpoint 1 0 0)).
  lra.
Defined.
